(** * PdfToEpubAI: the conversion pipeline, embedded and verified

    A shallow embedding of the pipeline's deterministic core:
    - [calculateDynamicBatches], [extractAndProcessImages]
      (src/services/imageProcessor.ts),
    - [retryWithBackoff], [generateImageCaptions] (the Gemini service),
    - the captioning stage of [handleFileSelect] (src/App.tsx),
    - [generateEpub] (src/services/epubGenerator.ts).

    The PDF library, the canvas, the AI service, [marked]'s lexer and
    [JSON.parse] are capabilities of the environment: they appear as
    data of the document, as oracles, or as section variables. *)

From Stdlib Require Import List Arith ZArith NArith Lia Bool.
From Stdlib Require Import Ascii String.
From Stdlib Require Import Permutation Sorted.
From Stdlib Require Import DecimalString DecimalNat.
From stdpp Require Import gmap strings.
Import ListNotations.

Local Open Scope string_scope.
Local Open Scope list_scope.
Local Open Scope nat_scope.

(** [simpl] computes string concatenation on literals. *)
#[local] Arguments String.append !s1 s2 /.

(* ===================================================================== *)
(** * Part I: the program                                                *)
(* ===================================================================== *)

(** ** The document handle (pdfjs) as the code consumes it *)

(** A [Blob] is the encoded bytes of a raster. *)
Definition Blob := string.

(** The three operator codes [processPage] distinguishes. *)
Inductive OpFn := paintImageXObject | paintInlineImageXObject | otherOp.

(** What [page.objs.get] hands back for a raster object: its own
    dimensions (0 when the property is absent), the dimensions of its
    [bitmap] when it has one, and whether it is itself an [ImageBitmap],
    [HTMLImageElement] or [HTMLCanvasElement]. *)
Record ImgObj := {
  io_width : N;
  io_height : N;
  io_bitmap : option (N * N);
  io_drawable : bool
}.

(** One entry of the operator list. [op_obj] is [None] when
    [page.objs.get] rejects and [Some None] when it resolves to a falsy
    value; [op_blob] is what drawing and [canvas.toBlob] produce ([None]:
    drawing throws, or the blob is null). *)
Record Operator := {
  op_fn : OpFn;
  op_obj : option (option ImgObj);
  op_blob : option Blob
}.

(** One page. [pg_load]: [pdf.getPage] resolves. [pg_text]: the [str] of
    the items of [getTextContent] ([None]: it rejects). [pg_render]: the
    whole-page render followed by [canvas.toBlob] ([None]: [render]
    rejects, [Some None]: the blob is null). [pg_ops]: the operator list
    ([None]: [getOperatorList] rejects). *)
Record PdfPage := {
  pg_load : bool;
  pg_text : option (list string);
  pg_render : option (option Blob);
  pg_ops : option (list Operator)
}.

Record PdfDoc := {
  numPages : nat;
  getPage : nat -> PdfPage
}.

(** ** BatchPlanner: [calculateDynamicBatches] *)

Definition MAX_CHARS_PER_BATCH : N := 12000.
Definition MAX_PAGES_PER_BATCH : nat := 8.

(** [textContent.items.reduce((acc, item) => acc + item.str.length, 0)] *)
Definition sumItemLengths (items : list string) : N :=
  fold_left (fun acc item => (acc + N.of_nat (String.length item))%N) items 0%N.

(** The body of the [try]/[catch] of the loop: the text length of page
    [i], or the fallback 1000 when the page cannot be analysed. *)
Definition pageTextLength (pdf : PdfDoc) (i : nat) : N :=
  let page := getPage pdf i in
  if pg_load page then
    match pg_text page with
    | Some items => sumItemLengths items
    | None => 1000%N
    end
  else 1000%N.

(** The three mutable locals of the loop. *)
Record BatchState := {
  batches : list (list nat);
  currentBatch : list nat;
  currentBatchChars : N
}.

(** One iteration of [for (let i = 1; i <= numPages; i++)]. *)
Definition batchStep (pdf : PdfDoc) (st : BatchState) (i : nat) : BatchState :=
  let w := pageTextLength pdf i in
  let isTextFull := (MAX_CHARS_PER_BATCH <? currentBatchChars st + w)%N in
  let isPagesFull := MAX_PAGES_PER_BATCH <=? length (currentBatch st) in
  if (isTextFull || isPagesFull) && (0 <? length (currentBatch st)) then
    {| batches := batches st ++ [currentBatch st];
       currentBatch := [i];
       currentBatchChars := w |}
  else
    {| batches := batches st;
       currentBatch := currentBatch st ++ [i];
       currentBatchChars := (currentBatchChars st + w)%N |}.

Definition batchLoop (pdf : PdfDoc) (pages : list nat) (st : BatchState) : BatchState :=
  fold_left (batchStep pdf) pages st.

Definition calculateDynamicBatches (pdf : PdfDoc) : list (list nat) :=
  let st := batchLoop pdf (seq 1 (numPages pdf))
              {| batches := []; currentBatch := []; currentBatchChars := 0%N |} in
  if 0 <? length (currentBatch st) then batches st ++ [currentBatch st]
  else batches st.

(** The estimated character sum of a batch. *)
Definition batchChars (pdf : PdfDoc) (b : list nat) : N :=
  fold_right (fun p acc => (pageTextLength pdf p + acc)%N) 0%N b.


(** ** JavaScript strings, as far as the code uses them

    Strings are modelled as byte strings; every marker the code tests
    for is ASCII. *)

(** The double quote and the line feed. *)
Definition dq : string := String "034"%char EmptyString.
Definition nl : string := String "010"%char EmptyString.

(** [s.startsWith(p)] *)
Definition startsWith (p s : string) : bool := String.prefix p s.

(** [s.includes(needle)] *)
Fixpoint includes (needle s : string) : bool :=
  String.prefix needle s ||
  match s with
  | EmptyString => false
  | String _ s' => includes needle s'
  end.

(** [s.toLowerCase()] on ASCII letters. *)
Definition lowerChar (c : ascii) : ascii :=
  let n := nat_of_ascii c in
  if (65 <=? n) && (n <=? 90) then ascii_of_nat (n + 32) else c.

Fixpoint toLowerCase (s : string) : string :=
  match s with
  | EmptyString => EmptyString
  | String c s' => String (lowerChar c) (toLowerCase s')
  end.

(** [s.replace(/c/g, by)] for a single character [c]. *)
Fixpoint replaceChar (c : ascii) (by_ : string) (s : string) : string :=
  match s with
  | EmptyString => EmptyString
  | String x s' =>
      if Ascii.eqb x c then by_ +:+ replaceChar c by_ s'
      else String x (replaceChar c by_ s')
  end.

(** [s.split(sep)] for a non-empty [sep]. [skip] counts the characters
    of a separator just matched that are still to be dropped, [cur] is
    the piece being collected. *)
Fixpoint split_aux (sep : string) (skip : nat) (cur : string) (s : string)
  : list string :=
  match s with
  | EmptyString => [cur]
  | String c s' =>
      match skip with
      | S k => split_aux sep k cur s'
      | 0 =>
          if String.prefix sep s
          then cur :: split_aux sep (String.length sep - 1) EmptyString s'
          else split_aux sep 0 (cur +:+ String c EmptyString) s'
      end
  end.

Definition split (sep s : string) : list string := split_aux sep 0 EmptyString s.

(** A JavaScript number, as far as the sort comparator needs it. *)
Inductive jsnum := Num (z : Z) | NaN.

Definition digitOf (c : ascii) : option nat :=
  let n := nat_of_ascii c in
  if (48 <=? n) && (n <=? 57) then Some (n - 48) else None.

(** The digits at the head of [s], read in base ten after [acc]. *)
Fixpoint parseDigits (s : string) (acc : nat) : nat :=
  match s with
  | EmptyString => acc
  | String c s' =>
      match digitOf c with
      | Some d => parseDigits s' (10 * acc + d)
      | None => acc
      end
  end.

(** [parseInt(s)] on the fragments the code gives it: the leading
    decimal digits, [NaN] when there is none. (Leading white space, a
    sign and a hexadecimal prefix are not modelled.) *)
Definition parseInt (s : string) : jsnum :=
  match s with
  | EmptyString => NaN
  | String c _ =>
      match digitOf c with
      | Some _ => Num (Z.of_nat (parseDigits s 0))
      | None => NaN
      end
  end.

(** [`${n}`] for a non-negative integer. *)
Definition decimal (n : nat) : string := NilEmpty.string_of_uint (Nat.to_uint n).

(** ** AIGateway: [retryWithBackoff] *)

(** A thrown value, with the three properties the classifier reads
    ([None]: the property is undefined). *)
Record JsError := {
  err_status : option Z;
  err_code : option Z;
  err_message : option string
}.

(** How a promise settles. *)
Inductive Outcome (T : Type) :=
| Resolved (v : T)
| Rejected (e : JsError).
Arguments Resolved {T} v.
Arguments Rejected {T} e.

Definition is429 (v : option Z) : bool :=
  match v with Some z => (z =? 429)%Z | None => false end.

(** [err.message?.f(...)]: falsy when there is no message. *)
Definition messageHas (f : string -> bool) (m : option string) : bool :=
  match m with Some s => f s | None => false end.

Definition isRateLimit (err : JsError) : bool :=
  is429 (err_status err) ||
  is429 (err_code err) ||
  messageHas (includes "429") (err_message err) ||
  messageHas (fun m => includes "quota" (toLowerCase m)) (err_message err) ||
  messageHas (fun m => includes "resource_exhausted" (toLowerCase m)) (err_message err).

(** What a run of the wrapper does, in order. *)
Inductive RetryEvent :=
| Invoke            (* [fn()] is called *)
| Warn (d : Z)      (* [console.warn] of the retry *)
| OnRetry (d : Z)   (* [onRetry(currentDelay)] *)
| Delay (d : Z).    (* [await delay(currentDelay)] *)

(** [fn] is any effectful call: [fn k] is how its invocation number [k]
    (counted from 0) settles. [calls] counts the invocations made so far;
    [onRetry] tells whether the optional callback was supplied. The
    result is how the wrapper settles, the number of invocations made and
    the events in order. *)
Fixpoint retryWithBackoff {T : Type} (fn : nat -> Outcome T) (retries : nat)
    (currentDelay : Z) (onRetry : bool) (calls : nat)
  : Outcome T * nat * list RetryEvent :=
  match fn calls with
  | Resolved v => (Resolved v, S calls, [Invoke])
  | Rejected err =>
      match retries with
      | S retries' =>
          if isRateLimit err then
            let '(res, n, evs) :=
              retryWithBackoff fn retries' (currentDelay * 2) onRetry (S calls) in
            (res, n,
             Invoke :: Warn currentDelay ::
             (if onRetry then [OnRetry currentDelay] else []) ++
             Delay currentDelay :: evs)
          else (Rejected err, S calls, [Invoke])
      | 0 => (Rejected err, S calls, [Invoke])
      end
  end.

Definition DEFAULT_RETRIES : nat := 5.
Definition DEFAULT_DELAY : Z := 2000.

(** The delays a run waited for, and those it reported. *)
Definition delaysOf (evs : list RetryEvent) : list Z :=
  flat_map (fun e => match e with Delay d => [d] | _ => [] end) evs.
Definition reportedOf (evs : list RetryEvent) : list Z :=
  flat_map (fun e => match e with OnRetry d => [d] | _ => [] end) evs.
Definition invocationsOf (evs : list RetryEvent) : nat :=
  length (List.filter (fun e => match e with Invoke => true | _ => false end) evs).

(** ** Images *)

(** A parsed JSON value. An image's [description] is typed [string] in
    the source, but the captioner stores whatever the response holds. *)
#[local] Unset Elimination Schemes.
Inductive json :=
| JNull
| JBool (b : bool)
| JNum (z : Z)
| JStr (s : string)
| JArr (items : list json)
| JObj (fields : list (string * json)).
#[local] Set Elimination Schemes.

(** [ProcessedImage]; [description] is [None] while the property is
    absent or undefined. *)
Record ProcessedImage := {
  name : string;
  data : Blob;
  mimeType : string;
  description : option json
}.

Record ImageExtractionResult := {
  images : list ProcessedImage;
  totalPages : nat
}.

Definition COVER_NAME : string := "image_p1_i1.jpg".

(** [`image_p${pageNum}_i${imageIndex}.jpg`] *)
Definition imageName (pageNum imageIndex : nat) : string :=
  "image_p" +:+ decimal pageNum +:+ "_i" +:+ decimal imageIndex +:+ ".jpg".

(** ** ImageExtractor: [extractAndProcessImages] *)

Definition CONCURRENCY : nat := 4.
Definition MIN_DIMENSION : N := 200.

(** [own || (bitmap ? bitmap.dim : 0)] *)
Definition resolveDim (own : N) (bitmapDim : option N) : N :=
  if (own =? 0)%N then
    match bitmapDim with Some d => d | None => 0%N end
  else own.

(** The image pushed for the cover. *)
Definition coverImage (blob : Blob) : ProcessedImage :=
  {| name := COVER_NAME; data := blob; mimeType := "image/jpeg";
     description := Some (JStr "Magazine Cover") |}.

(** One step of the walk over the operator list: the image pushed for
    operator [op], if any. Every way out that pushes nothing is a
    [continue], or an exception the inner [try] swallows. *)
Definition processOperator (pageNum imageIndex : nat) (op : Operator)
  : option ProcessedImage :=
  match op_fn op with
  | otherOp => None
  | _ =>
      match op_obj op with
      | None => None
      | Some None => None
      | Some (Some imgObj) =>
          let width := resolveDim (io_width imgObj) (fst <$> io_bitmap imgObj) in
          let height := resolveDim (io_height imgObj) (snd <$> io_bitmap imgObj) in
          if (width <? MIN_DIMENSION)%N || (height <? MIN_DIMENSION)%N then None
          else if bool_decide (is_Some (io_bitmap imgObj)) || io_drawable imgObj then
            match op_blob op with
            | Some blob =>
                Some {| name := imageName pageNum imageIndex; data := blob;
                        mimeType := "image/jpeg"; description := None |}
            | None => None
            end
          else None
      end
  end.

(** The loop over [operatorList.fnArray], with its counter
    [imageIndex]: the images pushed, in order. *)
Fixpoint processOperators (pageNum imageIndex : nat) (ops : list Operator)
  : list ProcessedImage :=
  match ops with
  | [] => []
  | op :: rest =>
      match processOperator pageNum imageIndex op with
      | Some img => img :: processOperators pageNum (S imageIndex) rest
      | None => processOperators pageNum imageIndex rest
      end
  end.

(** [processPage(pageNum)]: the images this task pushes onto
    [processedImages], in order. [ctx] tells whether
    [canvas.getContext('2d')] gave the task a context. *)
Definition processPage (ctx : nat -> bool) (pdf : PdfDoc) (pageNum : nat)
  : list ProcessedImage :=
  if negb (ctx pageNum) then []
  else
    let page := getPage pdf pageNum in
    if negb (pg_load page) then []
    else if pageNum =? 1 then
      match pg_render page with
      | Some (Some blob) => [coverImage blob]
      | _ => []
      end
    else
      match pg_ops page with
      | Some ops => processOperators pageNum 1 ops
      | None => []
      end.

(** The pages of the group that starts at page [i]:
    [for (j = 0; j < CONCURRENCY && i + j <= numPages; j++)]. *)
Definition groupPages (numPages i : nat) : list nat :=
  seq i (Nat.min CONCURRENCY (numPages + 1 - i)).

(** [for (i = ..; i <= numPages; i += CONCURRENCY)]; [fuel] bounds the
    number of groups. *)
Fixpoint pageGroupsFrom (fuel i numPages : nat) : list (list nat) :=
  match fuel with
  | 0 => []
  | S fuel' =>
      if i <=? numPages
      then groupPages numPages i :: pageGroupsFrom fuel' (i + CONCURRENCY) numPages
      else []
  end.

Definition pageGroups (numPages : nat) : list (list nat) :=
  pageGroupsFrom numPages 1 numPages.

(** The tasks of a group run concurrently: what they push arrives in
    any order that keeps each task's own order. *)
Inductive interleaving {A : Type} : list (list A) -> list A -> Prop :=
| interleaving_done (tasks : list (list A)) :
    Forall (fun t => t = []) tasks -> interleaving tasks []
| interleaving_push (pre : list (list A)) (x : A) (t : list A)
    (post : list (list A)) (l : list A) :
    interleaving (pre ++ t :: post) l ->
    interleaving (pre ++ (x :: t) :: post) (x :: l).

(** The contents [processedImages] can have before the sort: groups
    one after the other ([await Promise.all]), the tasks of a group
    interleaved. *)
Inductive pushedBy (ctx : nat -> bool) (pdf : PdfDoc)
  : list (list nat) -> list ProcessedImage -> Prop :=
| pushed_none : pushedBy ctx pdf [] []
| pushed_group (g : list nat) (gs : list (list nat))
    (l ls : list ProcessedImage) :
    interleaving (map (processPage ctx pdf) g) l ->
    pushedBy ctx pdf gs ls ->
    pushedBy ctx pdf (g :: gs) (l ++ ls).

(** *** The comparator and the sort *)

(** [name.split(sep1)[1].split(sep2)[0]] parsed by [parseInt]; [None]
    when [split(sep1)[1]] is undefined and the call throws. *)
Definition parseField (sep1 sep2 name : string) : option jsnum :=
  match split sep1 name with
  | _ :: s :: _ =>
      match split sep2 s with
      | x :: _ => Some (parseInt x)
      | [] => None
      end
  | _ => None
  end.

Definition getPageNum (name : string) : option jsnum := parseField "_p" "_" name.
Definition getIndexNum (name : string) : option jsnum := parseField "_i" "." name.

(** [a !== b] and [a - b] on numbers. *)
Definition strictNeq (a b : jsnum) : bool :=
  match a, b with
  | Num x, Num y => negb (x =? y)%Z
  | _, _ => true
  end.

Definition jsSub (a b : jsnum) : jsnum :=
  match a, b with
  | Num x, Num y => Num (x - y)
  | _, _ => NaN
  end.

(** The comparator given to [sort]; [None] when it throws. *)
Definition compareImages (a b : ProcessedImage) : option jsnum :=
  match getPageNum (name a) with
  | None => None
  | Some pA =>
      match getPageNum (name b) with
      | None => None
      | Some pB =>
          if strictNeq pA pB then Some (jsSub pA pB)
          else
            match getIndexNum (name a) with
            | None => None
            | Some iA =>
                match getIndexNum (name b) with
                | None => None
                | Some iB => Some (jsSub iA iB)
                end
            end
      end
  end.

(** [Array.prototype.sort(cmp)] is a builtin: ECMAScript fixes it to be
    stable, to read a [NaN] from the comparator as 0, and to let an
    exception of the comparator escape. It is modelled as the stable
    insertion sort: every element is put before the first element it
    compares below. *)
Definition isNegative (v : jsnum) : bool :=
  match v with Num z => (z <? 0)%Z | NaN => false end.

Fixpoint sortInsert {A : Type} (cmp : A -> A -> option jsnum) (x : A)
    (sorted : list A) : option (list A) :=
  match sorted with
  | [] => Some [x]
  | y :: rest =>
      match cmp x y with
      | None => None
      | Some v =>
          if isNegative v then Some (x :: y :: rest)
          else
            match sortInsert cmp x rest with
            | Some rest' => Some (y :: rest')
            | None => None
            end
      end
  end.

Fixpoint jsSortFrom {A : Type} (cmp : A -> A -> option jsnum)
    (sorted rest : list A) : option (list A) :=
  match rest with
  | [] => Some sorted
  | x :: rest' =>
      match sortInsert cmp x sorted with
      | Some sorted' => jsSortFrom cmp sorted' rest'
      | None => None
      end
  end.

Definition jsSort {A : Type} (cmp : A -> A -> option jsnum) (l : list A)
  : option (list A) := jsSortFrom cmp [] l.

(** The end of [extractAndProcessImages]: sort, then return; [None]
    when the comparator throws. *)
Definition sortAndReturn (pdf : PdfDoc) (processedImages : list ProcessedImage)
  : option ImageExtractionResult :=
  match jsSort compareImages processedImages with
  | Some sorted => Some {| images := sorted; totalPages := numPages pdf |}
  | None => None
  end.

(** Every run of [extractAndProcessImages]: some arrival order of the
    pushes, then the sort. *)
Definition extractRun (ctx : nat -> bool) (pdf : PdfDoc)
    (result : option ImageExtractionResult) : Prop :=
  exists processedImages,
    pushedBy ctx pdf (pageGroups (numPages pdf)) processedImages /\
    result = sortAndReturn pdf processedImages.

(** The run in which the tasks complete in page order. *)
Definition extractAndProcessImages (ctx : nat -> bool) (pdf : PdfDoc)
  : option ImageExtractionResult :=
  sortAndReturn pdf
    (flat_map (flat_map (processPage ctx pdf)) (pageGroups (numPages pdf))).

(** ** ImageCaptioner: [generateImageCaptions] *)

Definition BATCH_SIZE : nat := 8.
Definition PACING_DELAY : Z := 1000.

(** What the service answers: [usageMetadata] ([None]: absent;
    [Some None]: present without [totalTokenCount]) and [text]. *)
Record GenerateContentResponse := {
  usageMetadata : option (option N);
  text : option string
}.

(** One image of a request: the [inlineData] part and the
    ["Filename: ..."] part that follows it. *)
Record ImagePart := {
  part_mimeType : string;
  part_data : string;
  part_filename : string
}.

(** The environment of the captioner: whether [process.env.API_KEY] is
    set, [blobToBase64] ([None]: the promise rejects), how each
    invocation of [ai.models.generateContent] settles for the batch that
    starts at a given index with given parts, and [JSON.parse] ([None]:
    it throws). *)
Record CaptionEnv := {
  env_apiKey : bool;
  env_blobToBase64 : Blob -> option string;
  env_generateContent : nat -> list ImagePart -> nat -> Outcome GenerateContentResponse;
  env_JSON_parse : string -> option json
}.

(** What the captioner does besides mutating descriptions. *)
Inductive CaptionEvent :=
| Sent (i : nat) (parts : list ImagePart)  (* a request goes out *)
| TokenUsage (tokens : N)                   (* [onTokenUsage(...)] *)
| Pace (ms : Z)                             (* [await delay(1000)] *)
| BatchFailed (i : nat)                     (* [console.warn] of the [catch] *)
| Progress (count : nat).                   (* [onProgress(i + batch.length)] *)

(** [item.prop] on a parsed JSON value: [None] is the [TypeError] of
    reading a property of [null]; [Some None] is [undefined]. For an
    object the last binding of a duplicated key wins. *)
Fixpoint lookupField (k : string) (fields : list (string * json)) : option json :=
  match fields with
  | [] => None
  | (k', v) :: rest =>
      match lookupField k rest with
      | Some v' => Some v'
      | None => if String.eqb k k' then Some v else None
      end
  end.

Definition getProp (k : string) (item : json) : option (option json) :=
  match item with
  | JNull => None
  | JObj fields => Some (lookupField k fields)
  | _ => Some None
  end.

(** [img.name === v] *)
Definition nameIs (v : option json) (img : ProcessedImage) : bool :=
  match v with
  | Some (JStr s) => String.eqb (name img) s
  | _ => false
  end.

(** [arr.findIndex(pred)], [None] for -1. *)
Fixpoint findIndex {A : Type} (pred : A -> bool) (l : list A) : option nat :=
  match l with
  | [] => None
  | x :: rest => if pred x then Some 0 else S <$> findIndex pred rest
  end.

Definition setDescription (v : option json) (img : ProcessedImage) : ProcessedImage :=
  {| name := name img; data := data img; mimeType := mimeType img;
     description := v |}.

(** The body of [json.forEach]: [None] when it throws. [item.name] is
    read by the predicate of [findIndex], so it is not read at all when
    there is no image to test; [item.description] is read only after a
    match. *)
Definition applyItem (item : json) (captionedImages : list ProcessedImage)
  : option (list ProcessedImage) :=
  match captionedImages with
  | [] => Some []
  | _ :: _ =>
      match getProp "name" item with
      | None => None
      | Some itemName =>
          match findIndex (nameIs itemName) captionedImages with
          | Some targetIndex =>
              match getProp "description" item with
              | Some d => Some (alter (setDescription d) targetIndex captionedImages)
              | None => None
              end
          | None => Some captionedImages
          end
      end
  end.

(** [json.forEach(...)]: the images after the loop, and whether it
    threw; what was assigned before the exception stays assigned. *)
Fixpoint applyItems (items : list json) (captionedImages : list ProcessedImage)
  : list ProcessedImage * bool :=
  match items with
  | [] => (captionedImages, false)
  | item :: rest =>
      match applyItem item captionedImages with
      | Some captionedImages' => applyItems rest captionedImages'
      | None => (captionedImages, true)
      end
  end.

(** The parts of a batch, or [None] when a [blobToBase64] rejects. *)
Fixpoint batchParts (env : CaptionEnv) (batch : list ProcessedImage)
  : option (list ImagePart) :=
  match batch with
  | [] => Some []
  | img :: rest =>
      match env_blobToBase64 env (data img) with
      | None => None
      | Some b64 =>
          match batchParts env rest with
          | None => None
          | Some parts =>
              Some ({| part_mimeType := mimeType img; part_data := b64;
                       part_filename := name img |} :: parts)
          end
      end
  end.

(** The [try] block of one batch, after the request was built: the
    images afterwards, the events, and whether the [catch] ran. *)
Definition tryBatch (env : CaptionEnv) (i : nat) (parts : list ImagePart)
    (captionedImages : list ProcessedImage)
  : list ProcessedImage * list CaptionEvent * bool :=
  match retryWithBackoff (env_generateContent env i parts)
          DEFAULT_RETRIES DEFAULT_DELAY false 0 with
  | (Rejected _, _, _) => (captionedImages, [BatchFailed i], true)
  | (Resolved response, _, _) =>
      let usage :=
        match usageMetadata response with
        | Some total => [TokenUsage (default 0%N total)]
        | None => []
        end in
      match text response with
      | None | Some EmptyString => (captionedImages, usage ++ [Pace PACING_DELAY], false)
      | Some resultText =>
          match env_JSON_parse env resultText with
          | None => (captionedImages, usage ++ [BatchFailed i], true)
          | Some (JArr items) =>
              match applyItems items captionedImages with
              | (captionedImages', false) =>
                  (captionedImages', usage ++ [Pace PACING_DELAY], false)
              | (captionedImages', true) =>
                  (captionedImages', usage ++ [BatchFailed i], true)
              end
          | Some _ => (captionedImages, usage ++ [Pace PACING_DELAY], false)
          end
      end
  end.

(** How an async function ends: it returns, or it throws with the
    images as they are at that point (the objects are shared with the
    caller's array). *)
Inductive Completion :=
| Returns (captionedImages : list ProcessedImage)
| Throws (imagesSoFar : list ProcessedImage).

(** [arr.slice(i, j)] *)
Definition slice {A : Type} (i j : nat) (l : list A) : list A :=
  take (j - i) (drop i l).

(** [for (let i = ..; i < contentImages.length; i += BATCH_SIZE)];
    [fuel] bounds the number of batches. *)
Fixpoint captionLoop (env : CaptionEnv) (contentImages : list ProcessedImage)
    (fuel i : nat) (captionedImages : list ProcessedImage)
  : Completion * list CaptionEvent :=
  match fuel with
  | 0 => (Returns captionedImages, [])
  | S fuel' =>
      if i <? length contentImages then
        let batch := slice i (i + BATCH_SIZE) contentImages in
        match batchParts env batch with
        | None => (Throws captionedImages, [])
        | Some parts =>
            let '(captionedImages', evs, _) := tryBatch env i parts captionedImages in
            let '(res, evs') :=
              captionLoop env contentImages fuel' (i + BATCH_SIZE) captionedImages' in
            (res, Sent i parts :: evs ++ Progress (i + length batch) :: evs')
        end
      else (Returns captionedImages, [])
  end.

(** [generateImageCaptions(images, onProgress, onTokenUsage)]. The
    clone [[...images]] holds the same objects as [images], so one list
    stands for both arrays. *)
Definition generateImageCaptions (env : CaptionEnv) (images : list ProcessedImage)
  : Completion * list CaptionEvent :=
  if negb (env_apiKey env) then (Throws images, [])
  else
    let contentImages :=
      List.filter (fun img => negb (String.eqb (name img) COVER_NAME)) images in
    captionLoop env contentImages (length contentImages) 0 images.

(** ** The captioning stage of [handleFileSelect] *)

(** Step 2 of [handleFileSelect]: the value of [images] when the stage
    is over. A throw of the captioner is caught and only logged; the
    array then still holds the objects as the captioner left them. *)
Definition analyzeImages (env : CaptionEnv) (images : list ProcessedImage)
  : list ProcessedImage :=
  if 0 <? length images then
    match generateImageCaptions env images with
    | (Returns captioned, _) => captioned
    | (Throws imagesSoFar, _) => imagesSoFar
    end
  else images.

(** ** PackageAssembler: [generateEpub] *)

(** [escapeXml]: the five replacements, in the order of the source. A
    falsy argument (the empty string) gives the empty string, which is
    also what the replacements give. *)
Definition escapeXml (unsafe : string) : string :=
  replaceChar "'" "&apos;"
    (replaceChar "034" "&quot;"
       (replaceChar ">" "&gt;"
          (replaceChar "<" "&lt;"
             (replaceChar "&" "&amp;" unsafe)))).

(** [text.replace(/<[^>]*>?/gm, '')]: a match starts at each ['<'] and
    runs to the next ['>'] (included) or to the end of the text. *)
Fixpoint stripTagsFrom (inTag : bool) (s : string) : string :=
  match s with
  | EmptyString => EmptyString
  | String c s' =>
      if inTag then
        if Ascii.eqb c ">" then stripTagsFrom false s' else stripTagsFrom true s'
      else if Ascii.eqb c "<" then stripTagsFrom true s'
      else String c (stripTagsFrom false s')
  end.

Definition stripTags (s : string) : string := stripTagsFrom false s.

(** *** The tokens of [marked]

    The lexer of [marked] is a dependency; the model starts from its
    tokens. Block tokens form the sequence the parser walks in document
    order; a block that is neither a heading nor a paragraph is carried
    as the HTML the default renderer gives it. *)
#[local] Unset Elimination Schemes.
Inductive Inline :=
| IText (escaped : string)                 (* text, HTML-escaped by marked *)
| IEm (tokens : list Inline)
| IStrong (tokens : list Inline)
| ICodespan (escaped : string)
| IBr
| IImage (href : string) (title : option string) (alt : string)
| ILink (href : string) (title : option string) (tokens : list Inline).
#[local] Set Elimination Schemes.

Inductive Block :=
| BHeading (depth : nat) (tokens : list Inline)
| BParagraph (tokens : list Inline)
| BHr
| BOther (html : string).

Record TocItem := {
  toc_id : string;
  toc_text : string;
  toc_level : nat
}.

(** The two variables the heading renderer closes over. *)
Record RenderState := {
  headerCount : nat;
  toc : list TocItem
}.

(** [renderer.image] *)
Definition renderImage (href : string) (title : option string) (alt : string) : string :=
  match href with
  | EmptyString => EmptyString
  | _ =>
      let cleanHref := if startsWith "images/" href then href else "images/" +:+ href in
      let safeHref := escapeXml cleanHref in
      let safeAlt := escapeXml alt in
      "<img src=" +:+ dq +:+ safeHref +:+ dq +:+ " alt=" +:+ dq +:+ safeAlt +:+ dq +:+ " />"
  end.

(** [renderer.link], given the rendered link text. A title that is
    present but empty is falsy. *)
Definition renderLink (href : string) (title : option string) (text : string) : string :=
  let safeHref := escapeXml href in
  let safeTitle :=
    match title with
    | None | Some EmptyString => EmptyString
    | Some t => " title=" +:+ dq +:+ escapeXml t +:+ dq
    end in
  "<a href=" +:+ dq +:+ safeHref +:+ dq +:+ safeTitle +:+ ">" +:+ text +:+ "</a>".

(** [this.parser.parseInline(tokens)]: the outputs of the renderer, in
    order. [em], [strong], [codespan] and [text] are rendered by marked's
    defaults; [br], [image] and [link] by the overrides. *)
Fixpoint renderInline (t : Inline) : string :=
  let parseInline :=
    fix parseInline (tokens : list Inline) : string :=
      match tokens with
      | [] => EmptyString
      | t :: rest => renderInline t +:+ parseInline rest
      end in
  match t with
  | IText escaped => escaped
  | IEm tokens => "<em>" +:+ parseInline tokens +:+ "</em>"
  | IStrong tokens => "<strong>" +:+ parseInline tokens +:+ "</strong>"
  | ICodespan escaped => "<code>" +:+ escaped +:+ "</code>"
  | IBr => "<br />"
  | IImage href title alt => renderImage href title alt
  | ILink href title tokens => renderLink href title (parseInline tokens)
  end.

Fixpoint parseInline (tokens : list Inline) : string :=
  match tokens with
  | [] => EmptyString
  | t :: rest => renderInline t +:+ parseInline rest
  end.

(** [renderer.heading]: the HTML returned and the state afterwards. *)
Definition renderHeading (tokens : list Inline) (depth : nat) (st : RenderState)
  : string * RenderState :=
  let text := parseInline tokens in
  let id := "section-" +:+ decimal (headerCount st) in
  let headerCount' := S (headerCount st) in
  let toc' :=
    if depth <=? 2 then
      let plainText := stripTags text in
      toc st ++ [{| toc_id := id; toc_text := plainText; toc_level := depth |}]
    else toc st in
  ("<h" +:+ decimal depth +:+ " id=" +:+ dq +:+ id +:+ dq +:+ ">" +:+ text +:+
   "</h" +:+ decimal depth +:+ ">" +:+ nl,
   {| headerCount := headerCount'; toc := toc' |}).

Definition renderBlock (b : Block) (st : RenderState) : string * RenderState :=
  match b with
  | BHeading depth tokens => renderHeading tokens depth st
  | BParagraph tokens => ("<p>" +:+ parseInline tokens +:+ "</p>" +:+ nl, st)
  | BHr => ("<hr />" +:+ nl, st)
  | BOther html => (html, st)
  end.

(** [marked.parse(markdownContent, { renderer })] on the tokens of the
    document. *)
Fixpoint parseBlocks (blocks : list Block) (st : RenderState) : string * RenderState :=
  match blocks with
  | [] => (EmptyString, st)
  | b :: rest =>
      let '(html, st1) := renderBlock b st in
      let '(html', st2) := parseBlocks rest st1 in
      (html +:+ html', st2)
  end.

(** *** The archive *)

(** An entry of the zip: a folder, a text file (stored or deflated) or
    a binary file. *)
Inductive ZipEntry :=
| ZDir
| ZStored (content : string)
| ZText (content : string)
| ZBlob (content : Blob).

(** [zip.file(path, data)] and [zip.folder(path)] on the table of
    entries JSZip keeps, keyed by full path. *)
Definition zipFile (path : string) (e : ZipEntry) (zip : gmap string ZipEntry)
  : gmap string ZipEntry := <[path := e]> zip.

Definition zipFolder (path : string) (zip : gmap string ZipEntry)
  : gmap string ZipEntry :=
  match zip !! (path +:+ "/") with
  | Some _ => zip
  | None => <[path +:+ "/" := ZDir]> zip
  end.

(** A template literal of the source, written with a backquote where
    the source has a double quote. *)
Definition tpl (s : string) : string := replaceChar "`" dq s.

(** An [<item>] of the manifest; [item_properties] is the raw text the
    source splices after the media type. *)
Record ManifestItem := {
  item_id : string;
  item_href : string;
  item_mediaType : string;
  item_properties : string
}.

Definition renderItem (it : ManifestItem) : string :=
  tpl "<item id=`" +:+ item_id it +:+ tpl "` href=`" +:+ item_href it +:+
  tpl "` media-type=`" +:+ item_mediaType it +:+ dq +:+ item_properties it +:+ "/>".

(** An [<itemref>] of the spine; [ref_rest] is what follows the
    [idref] attribute inside the tag. *)
Record Itemref := {
  ref_idref : string;
  ref_rest : string
}.

Definition renderItemref (r : Itemref) : string :=
  tpl "<itemref idref=`" +:+ ref_idref r +:+ dq +:+ ref_rest r +:+ "/>".

Definition coverFilename : string := "image_p1_i1.jpg".

(** [images.some(img => img.name === coverFilename)] *)
Definition hasCoverImage (images : list ProcessedImage) : bool :=
  existsb (fun img => String.eqb (name img) coverFilename) images.

(** The item the loop over the images appends for [img]. *)
Definition imageManifestItem (img : ProcessedImage) : ManifestItem :=
  let isCover := String.eqb (name img) coverFilename in
  {| item_id := if isCover then "cover-image" else replaceChar "." "_" (name img);
     item_href := "images/" +:+ name img;
     item_mediaType := mimeType img;
     item_properties := if isCover then tpl " properties=`cover-image`" else EmptyString |}.

(** [coverManifestItem], when there is a cover. *)
Definition coverManifestItem (hasCover : bool) : option ManifestItem :=
  if hasCover then
    Some {| item_id := "cover"; item_href := "cover.xhtml";
            item_mediaType := "application/xhtml+xml"; item_properties := EmptyString |}
  else None.

(** The four items the template spells out. *)
Definition fixedManifestItems : list ManifestItem :=
  [ {| item_id := "nav"; item_href := "nav.xhtml";
       item_mediaType := "application/xhtml+xml";
       item_properties := tpl " properties=`nav`" |};
    {| item_id := "ncx"; item_href := "toc.ncx";
       item_mediaType := "application/x-dtbncx+xml"; item_properties := EmptyString |};
    {| item_id := "styles"; item_href := "styles.css";
       item_mediaType := "text/css"; item_properties := EmptyString |};
    {| item_id := "content"; item_href := "content.xhtml";
       item_mediaType := "application/xhtml+xml"; item_properties := EmptyString |} ].

Definition coverItemref (hasCover : bool) : option Itemref :=
  if hasCover then Some {| ref_idref := "cover"; ref_rest := tpl " linear=`yes`" |}
  else None.

Definition fixedItemrefs : list Itemref :=
  [ {| ref_idref := "nav"; ref_rest := " " |};
    {| ref_idref := "content"; ref_rest := EmptyString |} ].

(** The [<meta name="cover">] of the metadata, by its [content]. *)
Definition coverMeta (hasCover : bool) : option string :=
  if hasCover then Some "cover-image" else None.

(** The package descriptor, as the elements of its template. *)
Record OpfPackage := {
  opf_coverMeta : option string;
  opf_manifest : list ManifestItem;
  opf_spine : list Itemref
}.

Definition opfPackage (images : list ProcessedImage) : OpfPackage :=
  let hasCover := hasCoverImage images in
  {| opf_coverMeta := coverMeta hasCover;
     opf_manifest :=
       option_list (coverManifestItem hasCover) ++ fixedManifestItems ++
       map imageManifestItem images;
     opf_spine := option_list (coverItemref hasCover) ++ fixedItemrefs |}.

(** [imageManifestItems], the string the loop accumulates. *)
Definition imageManifestItems (images : list ProcessedImage) : string :=
  String.concat EmptyString
    (map (fun img => renderItem (imageManifestItem img) +:+ nl) images).

(** [opfContent] *)
Definition opfContent (cleanTitle uniqueId timestamp : string)
    (images : list ProcessedImage) : string :=
  let hasCover := hasCoverImage images in
  tpl "<?xml version=`1.0` encoding=`UTF-8`?>
<package xmlns=`http://www.idpf.org/2007/opf` unique-identifier=`BookID` version=`3.0`>
  <metadata xmlns:dc=`http://purl.org/dc/elements/1.1/`>
    <dc:title>" +:+ cleanTitle +:+ tpl "</dc:title>
    <dc:creator>MagToEpub AI</dc:creator>
    <dc:identifier id=`BookID`>urn:uuid:" +:+ uniqueId +:+ tpl "</dc:identifier>
    <dc:language>en</dc:language>
    <meta property=`dcterms:modified`>" +:+ timestamp +:+ tpl "</meta>
    " +:+ match coverMeta hasCover with
          | Some content => tpl "<meta name=`cover` content=`" +:+ content +:+ tpl "`/>"
          | None => EmptyString
          end +:+ "
  </metadata>
  <manifest>
    " +:+ from_option renderItem EmptyString (coverManifestItem hasCover) +:+ "
    " +:+ String.concat "
    " (map renderItem fixedManifestItems) +:+ "
    " +:+ imageManifestItems images +:+ tpl "
  </manifest>
  <spine toc=`ncx`>
    " +:+ from_option renderItemref EmptyString (coverItemref hasCover) +:+ "
    " +:+ String.concat "
    " (map renderItemref fixedItemrefs) +:+ "
  </spine>
  <guide>
    " +:+ (if hasCover
           then tpl "<reference type=`cover` title=`Cover` href=`cover.xhtml` />"
           else EmptyString) +:+ tpl "
    <reference type=`toc` title=`Table of Contents` href=`nav.xhtml` />
    <reference type=`text` title=`Start` href=`content.xhtml` />
  </guide>
</package>".

Definition containerXml : string :=
  tpl "<?xml version=`1.0`?>
<container version=`1.0` xmlns=`urn:oasis:names:tc:opendocument:xmlns:container`>
   <rootfiles>
      <rootfile full-path=`OEBPS/content.opf` media-type=`application/oebps-package+xml`/>
   </rootfiles>
</container>".

Definition css : string :=
  tpl "
    body { font-family: `Helvetica Neue`, Helvetica, Arial, sans-serif; line-height: 1.6; padding: 20px; }
    h1 { color: #2c3e50; page-break-before: always; text-align: center; margin-top: 2em; margin-bottom: 1em; }
    h2 { color: #34495e; margin-top: 1.5em; border-bottom: 1px solid #eee; padding-bottom: 0.5em; }
    p { margin-bottom: 1em; text-align: justify; }
    blockquote { border-left: 4px solid #3498db; padding-left: 1em; color: #7f8c8d; font-style: italic; margin: 1.5em 0; }
    img { max-width: 100%; height: auto; display: block; margin: 20px auto; border-radius: 4px; }
    figure { margin: 1em 0; text-align: center; }
    figcaption { font-size: 0.8em; color: #7f8c8d; margin-top: 0.5em; }
    nav#toc { margin-bottom: 2em; }
    nav#toc ol { list-style-type: none; padding-left: 0; }
    nav#toc li { margin-bottom: 0.5em; }
    nav#toc a { text-decoration: none; color: #2980b9; }
  ".

(** [a || b] on strings: the empty string is falsy. *)
Definition orElse (a b : string) : string :=
  match a with EmptyString => b | _ => a end.

Definition navLiItem (item : TocItem) : string :=
  "<li" +:+ (if toc_level item =? 2 then tpl " style=`padding-left:20px;`" else EmptyString) +:+
  tpl "><a href=`content.xhtml#" +:+ toc_id item +:+ tpl "`>" +:+
  escapeXml (toc_text item) +:+ "</a></li>".

Definition navXhtml (cleanTitle : string) (toc : list TocItem) : string :=
  let navLiItems := String.concat nl (map navLiItem toc) in
  tpl "<?xml version=`1.0` encoding=`utf-8`?>
<!DOCTYPE html>
<html xmlns=`http://www.w3.org/1999/xhtml` xmlns:epub=`http://www.idpf.org/2007/ops`>
<head>
  <title>" +:+ cleanTitle +:+ tpl "</title>
  <link rel=`stylesheet` type=`text/css` href=`styles.css` />
</head>
<body>
  <nav epub:type=`toc` id=`toc`>
    <h1>Table of Contents</h1>
    <ol>
      " +:+ orElse navLiItems (tpl "<li><a href=`content.xhtml`>Begin Reading</a></li>") +:+ "
    </ol>
  </nav>
</body>
</html>".

(** The nav point of the entry at [index] (counted from 0). *)
Definition navPoint (index : nat) (item : TocItem) : string :=
  tpl "
    <navPoint id=`navPoint-" +:+ decimal (index + 1) +:+ tpl "` playOrder=`" +:+
  decimal (index + 1) +:+ tpl "`>
      <navLabel><text>" +:+ escapeXml (toc_text item) +:+ tpl "</text></navLabel>
      <content src=`content.xhtml#" +:+ toc_id item +:+ tpl "`/>
    </navPoint>
  ".

Definition tocNcx (cleanTitle uniqueId : string) (toc : list TocItem) : string :=
  let navPoints := String.concat nl (imap navPoint toc) in
  tpl "<?xml version=`1.0` encoding=`UTF-8`?>
<ncx xmlns=`http://www.daisy.org/z3986/2005/ncx/` version=`2005-1`>
  <head>
    <meta name=`dtb:uid` content=`urn:uuid:" +:+ uniqueId +:+ tpl "`/>
    <meta name=`dtb:depth` content=`2`/>
    <meta name=`dtb:totalPageCount` content=`0`/>
    <meta name=`dtb:maxPageNumber` content=`0`/>
  </head>
  <docTitle><text>" +:+ cleanTitle +:+ "</text></docTitle>
  <navMap>
    " +:+ orElse navPoints
            (tpl "<navPoint id=`navPoint-1` playOrder=`1`><navLabel><text>Start</text></navLabel><content src=`content.xhtml`/></navPoint>") +:+ "
  </navMap>
</ncx>".

Definition coverXhtml : string :=
  tpl "<?xml version=`1.0` encoding=`utf-8`?>
<!DOCTYPE html>
<html xmlns=`http://www.w3.org/1999/xhtml` xmlns:epub=`http://www.idpf.org/2007/ops`>
<head>
  <title>Cover</title>
  <style type=`text/css`>
    body { margin: 0; padding: 0; text-align: center; }
    div.cover { height: 100vh; display: flex; align-items: center; justify-content: center; }
    img { max-width: 100%; height: 100%; object-fit: contain; }
  </style>
</head>
<body>
  <div class=`cover`>
    <img src=`images/" +:+ coverFilename +:+ tpl "` alt=`Cover Image` />
  </div>
</body>
</html>".

Definition contentXhtml (cleanTitle contentHtmlBody : string) : string :=
  tpl "<?xml version=`1.0` encoding=`utf-8`?>
<!DOCTYPE html>
<html xmlns=`http://www.w3.org/1999/xhtml` xmlns:epub=`http://www.idpf.org/2007/ops`>
<head>
  <title>" +:+ cleanTitle +:+ tpl "</title>
  <link rel=`stylesheet` type=`text/css` href=`styles.css` />
</head>
<body>
  " +:+ contentHtmlBody +:+ "
</body>
</html>".

(** The loop [images.forEach(img => imagesFolder.file(img.name, img.data))]
    on the zip. *)
Definition addImages (images : list ProcessedImage) (zip : gmap string ZipEntry)
  : gmap string ZipEntry :=
  fold_left (fun z img => zipFile ("OEBPS/images/" +:+ name img) (ZBlob (data img)) z)
            images zip.

(** What [generateEpub] builds before it hands the archive to
    [saveBlob]. *)
Record EpubPackage := {
  pkg_zip : gmap string ZipEntry;
  pkg_toc : list TocItem;
  pkg_content : string;
  pkg_opf : OpfPackage;
  pkg_filename : string
}.

(** [generateEpub(title, markdownContent, images)]. [uniqueId] is the
    value of [uuid()], [timestamp] the formatted [new Date()], and
    [markdownContent] comes as the tokens marked lexes it to. *)
Definition generateEpub (uniqueId timestamp : string) (title : string)
    (markdownContent : list Block) (images : list ProcessedImage) : EpubPackage :=
  let cleanTitle := escapeXml title in
  let hasCover := hasCoverImage images in
  (* 1. content and table of contents *)
  let '(contentHtmlBody, st) :=
    parseBlocks markdownContent {| headerCount := 0; toc := [] |} in
  let toc := toc st in
  (* 2. mimetype and container *)
  let zip := zipFile "mimetype" (ZStored "application/epub+zip") ∅ in
  let zip := zipFile "META-INF/container.xml" (ZText containerXml)
               (zipFolder "META-INF" zip) in
  let zip := zipFolder "OEBPS" zip in
  (* 3. styles, 4. navigation documents *)
  let zip := zipFile "OEBPS/styles.css" (ZText css) zip in
  let zip := zipFile "OEBPS/nav.xhtml" (ZText (navXhtml cleanTitle toc)) zip in
  let zip := zipFile "OEBPS/toc.ncx" (ZText (tocNcx cleanTitle uniqueId toc)) zip in
  (* 5. cover page *)
  let zip := if hasCover then zipFile "OEBPS/cover.xhtml" (ZText coverXhtml) zip else zip in
  (* 6. content *)
  let content := contentXhtml cleanTitle contentHtmlBody in
  let zip := zipFile "OEBPS/content.xhtml" (ZText content) zip in
  (* 7. images *)
  let zip := addImages images (zipFolder "OEBPS/images" zip) in
  (* 8. package descriptor *)
  let zip := zipFile "OEBPS/content.opf"
               (ZText (opfContent cleanTitle uniqueId timestamp images)) zip in
  {| pkg_zip := zip; pkg_toc := toc; pkg_content := content;
     pkg_opf := opfPackage images; pkg_filename := title +:+ ".epub" |}.

(* ===================================================================== *)
(** * Part II: the vocabulary of the properties                          *)
(* ===================================================================== *)

(** ** BatchPlanner *)

(** What a closed batch satisfies. *)
Definition batch_ok (pdf : PdfDoc) (b : list nat) : Prop :=
  b <> [] /\
  length b <= MAX_PAGES_PER_BATCH /\
  (2 <= length b -> (batchChars pdf b <= MAX_CHARS_PER_BATCH)%N).

(** The loop invariant after pages [1..k]. *)
Record batch_inv (pdf : PdfDoc) (k : nat) (st : BatchState) : Prop := {
  inv_concat : concat (batches st) ++ currentBatch st = seq 1 k;
  inv_closed : Forall (batch_ok pdf) (batches st);
  inv_len : length (currentBatch st) <= MAX_PAGES_PER_BATCH;
  inv_chars : currentBatchChars st = batchChars pdf (currentBatch st);
  inv_cap : 2 <= length (currentBatch st) ->
            (currentBatchChars st <= MAX_CHARS_PER_BATCH)%N
}.

(** A document of [n] pages whose text extraction gives one run of
    [w] characters on every page, and one where it fails on every page. *)
Definition textOfLength (w : nat) : string :=
  String.concat EmptyString (repeat "x" w).

Definition uniformPdf (n w : nat) : PdfDoc :=
  {| numPages := n;
     getPage := fun _ =>
       {| pg_load := true; pg_text := Some [textOfLength w];
          pg_render := None; pg_ops := None |} |}.

Definition unreadablePdf (n : nat) : PdfDoc :=
  {| numPages := n;
     getPage := fun _ =>
       {| pg_load := true; pg_text := None; pg_render := None; pg_ops := None |} |}.

(** ** AIGateway *)

(** The delays of an exponential backoff that starts at [d]. *)
Definition backoffDelays (d : Z) (k : nat) : list Z :=
  map (fun i => (d * 2 ^ Z.of_nat i)%Z) (seq 0 k).

(** What one failed attempt that is retried leaves in the trace. *)
Definition retryRound (onRetry : bool) (d : Z) : list RetryEvent :=
  Invoke :: Warn d :: (if onRetry then [OnRetry d] else []) ++ [Delay d].

(** The trace of [k] retried attempts, the first waiting for [d]. *)
Fixpoint retryRounds (onRetry : bool) (d : Z) (k : nat) : list RetryEvent :=
  match k with
  | 0 => []
  | S k' => retryRound onRetry d ++ retryRounds onRetry (d * 2) k'
  end.

(** Attempts [calls .. calls + k - 1] fail with a rate-limit-class
    error. *)
Definition rateLimited {T : Type} (fn : nat -> Outcome T) (calls k : nat) : Prop :=
  forall i, i < k -> exists e, fn (calls + i) = Rejected e /\ isRateLimit e = true.

(** The error the examples fail with, and one that is not retried. *)
Definition quotaError : JsError :=
  {| err_status := None; err_code := None;
     err_message := Some "RESOURCE_EXHAUSTED: Quota exceeded" |}.
Definition serverError : JsError :=
  {| err_status := Some 500%Z; err_code := None;
     err_message := Some "internal error" |}.

(** A call that fails three times with a quota error, then succeeds. *)
Definition flakyCall (i : nat) : Outcome nat :=
  if i <? 3 then Rejected quotaError else Resolved 7.

(** ** The filename convention *)

(** A string that does not continue a run of digits. *)
Definition stopsDigits (s : string) : Prop :=
  match s with
  | EmptyString => True
  | String c _ => digitOf c = None
  end.

(** ** ImageExtractor *)

(** The (page, index) a name parses to, when both are numbers. *)
Definition pageIndexOf (img : ProcessedImage) : option (Z * Z) :=
  match getPageNum (name img), getIndexNum (name img) with
  | Some (Num p), Some (Num i) => Some (p, i)
  | _, _ => None
  end.

Definition keyLt (a b : Z * Z) : Prop :=
  (a.1 < b.1 \/ (a.1 = b.1 /\ a.2 < b.2))%Z.
Definition keyLe (a b : Z * Z) : Prop :=
  (a.1 < b.1 \/ (a.1 = b.1 /\ a.2 <= b.2))%Z.

(** An order on (page, index), lifted to images through their names. *)
Definition byPageIndex (R : Z * Z -> Z * Z -> Prop) (a b : ProcessedImage) : Prop :=
  exists ka kb, pageIndexOf a = Some ka /\ pageIndexOf b = Some kb /\ R ka kb.

(** Sorted by (page number ascending, index ascending), strictly. *)
Definition sortedByPageIndex (l : list ProcessedImage) : Prop :=
  StronglySorted (byPageIndex keyLt) l.

Definition parses (img : ProcessedImage) : Prop := is_Some (pageIndexOf img).

(** The images in page order: what is pushed when the tasks complete
    one after the other. *)
Definition inPageOrder (ctx : nat -> bool) (pdf : PdfDoc) : list ProcessedImage :=
  flat_map (processPage ctx pdf) (seq 1 (numPages pdf)).

(** The images of a list whose name parses to page [p]. *)
Definition imagesOfPage (p : Z) (l : list ProcessedImage) : list ProcessedImage :=
  List.filter
    (fun img => match getPageNum (name img) with
                | Some (Num q) => (q =? p)%Z
                | _ => false
                end) l.

(** The cover the first page renders to, when every step on the way
    succeeds: the task has a canvas context, the page loads, [render]
    resolves and [toBlob] yields a blob. *)
Definition coverOf (ctx : nat -> bool) (pdf : PdfDoc) : option Blob :=
  if (1 <=? numPages pdf) && ctx 1 && pg_load (getPage pdf 1) then
    match pg_render (getPage pdf 1) with
    | Some (Some blob) => Some blob
    | _ => None
    end
  else None.

(** *** Sample documents *)

Definition everyCtx : nat -> bool := fun _ => true.

Definition photo : ImgObj :=
  {| io_width := 640; io_height := 480; io_bitmap := Some (640%N, 480%N);
     io_drawable := false |}.
Definition icon : ImgObj :=
  {| io_width := 32; io_height := 32; io_bitmap := None; io_drawable := true |}.

Definition paint (obj : ImgObj) (blob : Blob) : Operator :=
  {| op_fn := paintImageXObject; op_obj := Some (Some obj); op_blob := Some blob |}.

(** Three pages: a cover with an embedded photo, a page with two photos
    around an icon, a page with one photo. *)
Definition samplePdf : PdfDoc :=
  {| numPages := 3;
     getPage := fun n =>
       match n with
       | 1 => {| pg_load := true; pg_text := Some ["Magazine"];
                 pg_render := Some (Some "cover"); pg_ops := Some [paint photo "a"] |}
       | 2 => {| pg_load := true; pg_text := Some ["Lorem"; "ipsum"];
                 pg_render := Some (Some "page2");
                 pg_ops := Some [paint photo "b"; paint icon "c"; paint photo "d"] |}
       | _ => {| pg_load := true; pg_text := None;
                 pg_render := Some (Some "page3"); pg_ops := Some [paint photo "e"] |}
       end |}.

Definition extracted (p i : nat) (blob : Blob) : ProcessedImage :=
  {| name := imageName p i; data := blob; mimeType := "image/jpeg";
     description := None |}.

(** The pushes of [samplePdf] when page 3 completes first and page 1
    in the middle of page 2. *)
Definition sampleArrival : list ProcessedImage :=
  [extracted 3 1 "e"; extracted 2 1 "b"; coverImage "cover"; extracted 2 2 "d"].

(** A document whose first page fails to render, although it embeds a
    photo; its second page has one photo. *)
Definition brokenCoverPdf : PdfDoc :=
  {| numPages := 2;
     getPage := fun n =>
       match n with
       | 1 => {| pg_load := true; pg_text := Some ["Magazine"];
                 pg_render := None; pg_ops := Some [paint photo "a"] |}
       | _ => {| pg_load := true; pg_text := Some ["Lorem"];
                 pg_render := Some (Some "page2"); pg_ops := Some [paint photo "b"] |}
       end |}.

(** The document [pdf] with the operator list of page [p] replaced. *)
Definition setPageOps (pdf : PdfDoc) (p : nat) (ops : option (list Operator)) : PdfDoc :=
  {| numPages := numPages pdf;
     getPage := fun n =>
       if n =? p then
         {| pg_load := pg_load (getPage pdf n); pg_text := pg_text (getPage pdf n);
            pg_render := pg_render (getPage pdf n); pg_ops := ops |}
       else getPage pdf n |}.

(** ** ImageCaptioner *)

(** What the captioner never touches of an image. *)
Definition identityOf (img : ProcessedImage) : string * Blob * string :=
  (name img, data img, mimeType img).

(** The images a completion leaves behind. *)
Definition completionImages (c : Completion) : list ProcessedImage :=
  match c with
  | Returns l => l
  | Throws l => l
  end.

(** Every [blobToBase64] of the list resolves. *)
Definition blobsConvert (env : CaptionEnv) (images : list ProcessedImage) : Prop :=
  forall img, In img images -> is_Some (env_blobToBase64 env (data img)).

(** The description the extractor gives the cover. *)
Definition COVER_DESCRIPTION : option json := Some (JStr "Magazine Cover").

Definition coverKeepsDescription (l : list ProcessedImage) : Prop :=
  forall img, In img l -> name img = COVER_NAME -> description img = COVER_DESCRIPTION.

(** The service answers as instructed: a JSON array whose entries name
    images of the request they answer. *)
Definition responsesConform (env : CaptionEnv) : Prop :=
  forall i parts k response resultText items item itemName,
    env_generateContent env i parts k = Resolved response ->
    text response = Some resultText ->
    env_JSON_parse env resultText = Some (JArr items) ->
    In item items ->
    getProp "name" item = Some (Some (JStr itemName)) ->
    In itemName (map part_filename parts).

(** *** Sample services *)

Definition base64Of (b : Blob) : option string := Some ("b64:" +:+ b).

(** A service that always fails with a server error. *)
Definition failingEnv : CaptionEnv :=
  {| env_apiKey := true;
     env_blobToBase64 := base64Of;
     env_generateContent := fun _ _ _ => Rejected serverError;
     env_JSON_parse := fun _ => None |}.

(** A service that answers with text that is not JSON. *)
Definition garbledEnv : CaptionEnv :=
  {| env_apiKey := true;
     env_blobToBase64 := base64Of;
     env_generateContent := fun _ _ _ =>
       Resolved {| usageMetadata := Some (Some 42%N); text := Some "Sorry, I cannot." |};
     env_JSON_parse := fun _ => None |}.

(** A service whose answer is a JSON array with a null entry after a
    good one. *)
Definition nullEntryEnv : CaptionEnv :=
  {| env_apiKey := true;
     env_blobToBase64 := base64Of;
     env_generateContent := fun _ _ _ =>
       Resolved {| usageMetadata := None; text := Some "[{...}, null]" |};
     env_JSON_parse := fun _ =>
       Some (JArr [JObj [("name", JStr "image_p2_i1.jpg");
                         ("description", JStr "A photograph")];
                   JNull]) |}.

(** A service that is rate limited once, then answers as instructed:
    it describes [image_p2_i1.jpg] when the request holds it. *)
Definition sampleCaptionText : string :=
  "[{" +:+ dq +:+ "name" +:+ dq +:+ ": " +:+ dq +:+ "image_p2_i1.jpg" +:+ dq +:+
  ", " +:+ dq +:+ "description" +:+ dq +:+ ": " +:+ dq +:+ "A photograph" +:+ dq +:+ "}]".

Definition sampleCaption : json :=
  JArr [JObj [("name", JStr "image_p2_i1.jpg"); ("description", JStr "A photograph")]].

(** [JSON.parse] on the two texts the sample service sends. *)
Definition sampleParse (resultText : string) : option json :=
  if String.eqb resultText sampleCaptionText then Some sampleCaption
  else if String.eqb resultText "[]" then Some (JArr [])
  else None.

Definition helpfulEnv : CaptionEnv :=
  {| env_apiKey := true;
     env_blobToBase64 := base64Of;
     env_generateContent := fun _ parts k =>
       match k with
       | 0 => Rejected quotaError
       | _ =>
           Resolved
             {| usageMetadata := Some (Some 120%N);
                text := Some (if existsb (fun part => String.eqb (part_filename part)
                                                        "image_p2_i1.jpg") parts
                              then sampleCaptionText else "[]") |}
       end;
     env_JSON_parse := sampleParse |}.

(** ** PackageAssembler *)





(** *** A sample package *)

Definition sampleImages : list ProcessedImage :=
  [coverImage "cover"; extracted 2 1 "b"].



(** *** Headings and the table of contents *)

(** The headings of a document in document order: depth and tokens. *)
Definition headingsOf (blocks : list Block) : list (nat * list Inline) :=
  flat_map (fun b => match b with
                     | BHeading depth tokens => [(depth, tokens)]
                     | _ => []
                     end) blocks.

Definition sectionId (n : nat) : string := "section-" +:+ decimal n.

(** The entry recorded for the heading [h] when it is heading number
    [n] of the document (counted from 0, over the headings of every
    depth). *)
Definition tocEntryOf (n : nat) (h : nat * list Inline) : TocItem :=
  {| toc_id := sectionId n; toc_text := stripTags (parseInline h.2); toc_level := h.1 |}.

(** The entries recorded for the headings [hs], the first of which is
    heading number [n]: one for each heading of depth 1 or 2. *)
Fixpoint tocFrom (n : nat) (hs : list (nat * list Inline)) : list TocItem :=
  match hs with
  | [] => []
  | h :: rest =>
      (if h.1 <=? 2 then [tocEntryOf n h] else []) ++ tocFrom (S n) rest
  end.


(** The HTML of heading number [n]. *)
Definition headingHtml (n : nat) (h : nat * list Inline) : string :=
  "<h" +:+ decimal h.1 +:+ " id=" +:+ dq +:+ sectionId n +:+ dq +:+ ">" +:+
  parseInline h.2 +:+ "</h" +:+ decimal h.1 +:+ ">" +:+ nl.




(** *** Escaping *)

(** What [escapeXml] makes of one character. *)
Definition escapeChar (c : ascii) : string :=
  if Ascii.eqb c "&" then "&amp;"
  else if Ascii.eqb c "<" then "&lt;"
  else if Ascii.eqb c ">" then "&gt;"
  else if Ascii.eqb c "034" then "&quot;"
  else if Ascii.eqb c "'" then "&apos;"
  else String c EmptyString.

(** A character that may stand in an attribute value: no angle
    bracket, no quote. *)
Definition attrChar (c : ascii) : bool :=
  negb (Ascii.eqb c "<" || Ascii.eqb c ">" || Ascii.eqb c "034" || Ascii.eqb c "'").

Fixpoint attrSafe (s : string) : bool :=
  match s with
  | EmptyString => true
  | String c s' => attrChar c && attrSafe s'
  end.




(** *** Inline tokens *)

(** The text of a token without its formatting. *)
Fixpoint plainText (t : Inline) : string :=
  let plainTexts :=
    fix plainTexts (tokens : list Inline) : string :=
      match tokens with
      | [] => EmptyString
      | t :: rest => plainText t +:+ plainTexts rest
      end in
  match t with
  | IText escaped => escaped
  | IEm tokens => plainTexts tokens
  | IStrong tokens => plainTexts tokens
  | ICodespan escaped => escaped
  | IBr => EmptyString
  | IImage _ _ _ => EmptyString
  | ILink _ _ tokens => plainTexts tokens
  end.

Fixpoint plainTexts (tokens : list Inline) : string :=
  match tokens with
  | [] => EmptyString
  | t :: rest => plainText t +:+ plainTexts rest
  end.

(** No ['<'] in a text. *)
Fixpoint noOpen (s : string) : bool :=
  match s with
  | EmptyString => true
  | String c s' => negb (Ascii.eqb c "<") && noOpen s'
  end.




(** Whether a scan that starts inside ([inTag]) or outside a tag ends
    inside one. *)
Fixpoint endsInTag (inTag : bool) (s : string) : bool :=
  match s with
  | EmptyString => inTag
  | String c s' =>
      if inTag then endsInTag (negb (Ascii.eqb c ">")) s'
      else endsInTag (Ascii.eqb c "<") s'
  end.

Section Occurrence.
Variable x : Inline.

(** The token [x] occurs in the token [t], at any depth. *)
Fixpoint occursIn (t : Inline) : Prop :=
  let occursAmong :=
    fix occursAmong (tokens : list Inline) : Prop :=
      match tokens with
      | [] => False
      | t' :: rest => occursIn t' \/ occursAmong rest
      end in
  t = x \/
  match t with
  | IEm tokens => occursAmong tokens
  | IStrong tokens => occursAmong tokens
  | ILink _ _ tokens => occursAmong tokens
  | _ => False
  end.

Fixpoint occursAmong (tokens : list Inline) : Prop :=
  match tokens with
  | [] => False
  | t :: rest => occursIn t \/ occursAmong rest
  end.
End Occurrence.



(** *** A sample image reference *)





(** *** Proof tools *)

(** Reads the literal digit at the head of the goal's [digitOf]. *)
Ltac eval_digitOf :=
  match goal with
  | |- context [digitOf ?c] =>
      let v := eval vm_compute in (digitOf c) in
      change (digitOf c) with v; cbv beta iota
  end.

(* ===================================================================== *)
(** * Part II, continued: further vocabulary                             *)
(* ===================================================================== *)

(** ** BatchPlanner: batches are closed only when full *)

(** Page [p] did not fit the batch [b]: the batch has the page cap, or
    the page would take it over the character cap. *)
Definition didNotFit (pdf : PdfDoc) (b : list nat) (p : nat) : Prop :=
  length b = MAX_PAGES_PER_BATCH \/
  (MAX_CHARS_PER_BATCH < batchChars pdf b + pageTextLength pdf p)%N.

(** Every batch that has a successor was closed because the first page
    of the successor did not fit. *)
Fixpoint closedWhenFull (pdf : PdfDoc) (bs : list (list nat)) : Prop :=
  match bs with
  | [] => True
  | b :: rest =>
      match rest with
      | [] => True
      | b' :: _ =>
          (forall p, head b' = Some p -> didNotFit pdf b p) /\ closedWhenFull pdf rest
      end
  end.

(** ** AIGateway: any call *)

(** The time a run spent waiting. *)
Definition totalDelay (evs : list RetryEvent) : Z :=
  fold_right Z.add 0%Z (delaysOf evs).

(** An outcome the wrapper does not retry. *)
Definition final {T : Type} (o : Outcome T) : Prop :=
  match o with
  | Resolved _ => True
  | Rejected e => isRateLimit e = false
  end.

(** ** ImageExtractor: where an image comes from *)

(** The operator [op] paints a raster that passes the size filter and
    encodes to [blob]. *)
Definition paintsLarge (op : Operator) (blob : Blob) : Prop :=
  op_fn op <> otherOp /\
  exists imgObj,
    op_obj op = Some (Some imgObj) /\
    (MIN_DIMENSION <= resolveDim (io_width imgObj) (fst <$> io_bitmap imgObj))%N /\
    (MIN_DIMENSION <= resolveDim (io_height imgObj) (snd <$> io_bitmap imgObj))%N /\
    op_blob op = Some blob.

(** Where an image of the result comes from: the render of the first
    page, or a large raster painted on a later page. *)
Definition provenance (pdf : PdfDoc) (img : ProcessedImage) : Prop :=
  (name img = COVER_NAME /\
   pg_render (getPage pdf 1) = Some (Some (data img)) /\
   description img = Some (JStr "Magazine Cover")) \/
  (exists p i ops op,
     2 <= p <= numPages pdf /\ name img = imageName p i /\
     pg_ops (getPage pdf p) = Some ops /\ In op ops /\
     paintsLarge op (data img) /\ description img = None).

(** The task of page [p] pushes nothing: it has no canvas context, or
    the page does not load, or (past the first page) its operator list
    cannot be read. *)
Definition pageFails (ctx : nat -> bool) (pdf : PdfDoc) (p : nat) : Prop :=
  ctx p = false \/ pg_load (getPage pdf p) = false \/
  (p <> 1 /\ pg_ops (getPage pdf p) = None).

(** [samplePdf] with a second page that does not load. *)
Definition damagedPdf : PdfDoc :=
  {| numPages := 3;
     getPage := fun n =>
       if n =? 2 then
         {| pg_load := false; pg_text := None; pg_render := None; pg_ops := None |}
       else getPage samplePdf n |}.

(** ** ImageCaptioner: the requests and the entries of a response *)

(** The requests of a run, in order, each by its image parts. *)
Definition requestsOf (evs : list CaptionEvent) : list (list ImagePart) :=
  flat_map (fun e => match e with Sent _ parts => [parts] | _ => [] end) evs.

(** The filter at the head of [generateImageCaptions]. *)
Definition contentImagesOf (images : list ProcessedImage) : list ProcessedImage :=
  List.filter (fun img => negb (String.eqb (name img) COVER_NAME)) images.

(** An entry of a response that is an object. *)
Definition isEntry (item : json) : Prop :=
  match item with JObj _ => True | _ => False end.

(** The description the entry [item] carries for the image named [n],
    if it names it: [Some None] is an entry without [description]. *)
Definition entryFor (n : string) (item : json) : option (option json) :=
  match item with
  | JObj fields =>
      match lookupField "name" fields with
      | Some (JStr s) => if String.eqb n s then Some (lookupField "description" fields) else None
      | _ => None
      end
  | _ => None
  end.

(** The description of the last entry of [items] that names [n]. *)
Fixpoint lastNaming (n : string) (items : list json) : option (option json) :=
  match items with
  | [] => None
  | item :: rest =>
      match lastNaming n rest with
      | Some d => Some d
      | None => entryFor n item
      end
  end.

(** The image after the entries [items] were applied. *)
Definition captionedBy (items : list json) (img : ProcessedImage) : ProcessedImage :=
  match lastNaming (name img) items with
  | Some d => setDescription d img
  | None => img
  end.

(** A response with two entries for one image, one for an image that
    is not there, and one without a name. *)
Definition sampleEntries : list json :=
  [ JObj [("name", JStr "image_p2_i1.jpg"); ("description", JStr "A draft")];
    JObj [("name", JStr "image_p9_i9.jpg"); ("description", JStr "Nothing")];
    JObj [("description", JStr "Nameless")];
    JObj [("name", JStr "image_p2_i1.jpg"); ("description", JStr "A photograph")] ].

(** ** PackageAssembler: navigation and the contents of the archive *)








(** Two images whose names differ and whose manifest ids agree. *)
Definition collidingImages : list ProcessedImage :=
  [ {| name := "fig.1.jpg"; data := "x"; mimeType := "image/jpeg"; description := None |};
    {| name := "fig_1.jpg"; data := "y"; mimeType := "image/jpeg"; description := None |} ].

(** A heading with raw markup in its text. *)
Definition markupHeading : list Block :=
  [BHeading 1 [IText "A <b>bold</b> "; IEm [IText "claim"]; IText " <unclosed"]].
(* ===================================================================== *)
(** * Part III: the properties                                           *)
(* ===================================================================== *)

(** ** BatchPlanner *)

Section BatchPlanner.
Variable pdf : PdfDoc.

Lemma batchChars_snoc (b : list nat) (i : nat) :
  batchChars pdf (b ++ [i]) = (batchChars pdf b + pageTextLength pdf i)%N.
Proof.
  unfold batchChars. induction b as [|p b IH]; simpl.
  - lia.
  - rewrite IH. lia.
Qed.

Lemma batch_inv_init :
  batch_inv pdf 0 {| batches := []; currentBatch := []; currentBatchChars := 0%N |}.
Proof. constructor; simpl; auto; lia. Qed.

Lemma batchStep_inv (k : nat) (st : BatchState) :
  batch_inv pdf k st -> batch_inv pdf (S k) (batchStep pdf st (S k)).
Proof.
  intros [Hc Hcl Hl Hch Hcap]. unfold batchStep.
  set (w := pageTextLength pdf (S k)).
  destruct ((_ || _) && _) eqn:Eclose.
  - (* the current batch is closed, page [S k] opens a new one *)
    apply andb_true_iff in Eclose as [_ Hne%Nat.ltb_lt].
    constructor; cbn [batches currentBatch currentBatchChars].
    + rewrite concat_app, seq_S, <- Hc. simpl.
      now rewrite app_nil_r.
    + apply Forall_app. split; [assumption|].
      constructor; [|constructor]. repeat split.
      * intros Hnil. rewrite Hnil in Hne. simpl in Hne. lia.
      * assumption.
      * intros H2. rewrite <- Hch. auto.
    + unfold MAX_PAGES_PER_BATCH. simpl. lia.
    + unfold batchChars. simpl. fold w. lia.
    + simpl. lia.
  - (* page [S k] joins the current batch *)
    apply andb_false_iff in Eclose.
    constructor; cbn [batches currentBatch currentBatchChars].
    + now rewrite seq_S, <- Hc, app_assoc.
    + assumption.
    + rewrite length_app. simpl.
      destruct Eclose as [Hfull | Hempty%Nat.ltb_ge].
      * apply orb_false_iff in Hfull as [_ Hpages%Nat.leb_gt].
        unfold MAX_PAGES_PER_BATCH in *. lia.
      * unfold MAX_PAGES_PER_BATCH in *. lia.
    + now rewrite batchChars_snoc, Hch.
    + rewrite length_app. simpl. intros H2.
      destruct Eclose as [Hfull | Hempty%Nat.ltb_ge]; [|lia].
      apply orb_false_iff in Hfull as [Htext%N.ltb_ge _]. exact Htext.
Qed.

Lemma batchLoop_inv (n k : nat) (st : BatchState) :
  batch_inv pdf k st -> batch_inv pdf (k + n) (batchLoop pdf (seq (S k) n) st).
Proof.
  revert k st. induction n as [|n IH]; intros k st Hinv; simpl.
  - now rewrite Nat.add_0_r.
  - replace (k + S n) with (S k + n) by lia.
    apply IH, batchStep_inv, Hinv.
Qed.

Lemma calculateDynamicBatches_ok :
  concat (calculateDynamicBatches pdf) = seq 1 (numPages pdf) /\
  Forall (batch_ok pdf) (calculateDynamicBatches pdf).
Proof.
  unfold calculateDynamicBatches.
  pose proof (batchLoop_inv (numPages pdf) 0 _ batch_inv_init) as Hinv.
  simpl in Hinv.
  set (st := batchLoop pdf (seq 1 (numPages pdf)) _) in *.
  destruct Hinv as [Hc Hcl Hl Hch Hcap].
  destruct (0 <? length (currentBatch st)) eqn:E.
  - apply Nat.ltb_lt in E. split.
    + rewrite concat_app. simpl. rewrite app_nil_r. exact Hc.
    + apply Forall_app. split; [assumption|].
      constructor; [|constructor]. repeat split.
      * intros Hnil. rewrite Hnil in E. simpl in E. lia.
      * assumption.
      * intros H2. rewrite <- Hch. auto.
  - apply Nat.ltb_ge in E.
    assert (currentBatch st = []) as Hnil
      by (destruct (currentBatch st); simpl in *; [reflexivity | lia]).
    rewrite Hnil, app_nil_r in Hc. split; assumption.
Qed.
End BatchPlanner.

(** The examples of the specification: ten pages of 1500 characters
    fill a batch of eight pages (12000 characters, at both caps) and
    leave two; one page of 50000 characters is a batch of its own. *)
Example batches_ten_pages_of_1500 :
  calculateDynamicBatches (uniformPdf 10 1500) = [[1; 2; 3; 4; 5; 6; 7; 8]; [9; 10]].
Proof. vm_compute. reflexivity. Qed.

Example batches_one_heavy_page :
  calculateDynamicBatches (uniformPdf 1 (50 * 1000)) = [[1]].
Proof. vm_compute. reflexivity. Qed.

(** Pages of 5000 characters go two to a batch; a heavy page between
    light ones closes the batch before it and is closed by the page
    after it. *)
Example batches_of_5000 :
  calculateDynamicBatches (uniformPdf 5 5000) = [[1; 2]; [3; 4]; [5]].
Proof. vm_compute. reflexivity. Qed.

(** Where the text cannot be read every page weighs 1000, and the page
    cap closes the batches. *)
Example batches_unreadable :
  calculateDynamicBatches (unreadablePdf 13) =
  [[1; 2; 3; 4; 5; 6; 7; 8]; [9; 10; 11; 12; 13]].
Proof. vm_compute. reflexivity. Qed.

Lemma pageTextLength_le_batchChars (pdf : PdfDoc) (b : list nat) (p : nat) :
  In p b -> (pageTextLength pdf p <= batchChars pdf b)%N.
Proof.
  unfold batchChars. induction b as [|q b IH]; simpl; [tauto|].
  intros [-> | Hin]; [lia|]. specialize (IH Hin). lia.
Qed.

Lemma concat_batch_index {A : Type} (bs : list (list A)) :
  NoDup (concat bs) ->
  forall (i j : nat) (b b' : list A) (x : A),
    nth_error bs i = Some b -> nth_error bs j = Some b' ->
    In x b -> In x b' -> i = j.
Proof.
  induction bs as [|c bs IH]; intros Hnd i j b b' x Hi Hj Hx Hx'.
  - destruct i; discriminate.
  - simpl in Hnd. apply NoDup_app in Hnd as (_ & Hdisj' & Htail).
    assert (forall y, In y c -> ~ In y (concat bs)) as Hdisj.
    { intros y Hy%list_elem_of_In Hy'%list_elem_of_In. exact (Hdisj' y Hy Hy'). }
    destruct i as [|i], j as [|j]; simpl in Hi, Hj.
    + reflexivity.
    + injection Hi as <-. exfalso. apply (Hdisj x Hx).
      apply in_concat. exists b'. split; [|assumption].
      eapply nth_error_In; eassumption.
    + injection Hj as <-. exfalso. apply (Hdisj x Hx').
      apply in_concat. exists b. split; [|assumption].
      eapply nth_error_In; eassumption.
    + f_equal. eapply IH; eassumption.
Qed.

(** C1. For every document, the batches returned by
    [calculateDynamicBatches] partition the pages [1..N] contiguously
    and completely: their concatenation is [1; 2; ...; N], so batches are
    ordered, every page lies in a batch, no page lies in two, and the
    batch sizes add up to [N]. No batch is empty or has more than
    [MAX_PAGES_PER_BATCH] pages; a batch of two or more pages has an
    estimated character sum of at most [MAX_CHARS_PER_BATCH]; and a page
    whose own weight exceeds that cap is emitted as a singleton batch.
    Weights use the fallback 1000 where text extraction fails
    ([pageTextLength]). *)
Theorem C1_batches_partition_pages (pdf : PdfDoc) :
  let bs := calculateDynamicBatches pdf in
  concat bs = seq 1 (numPages pdf) /\
  list_sum (map (@length nat) bs) = numPages pdf /\
  (forall p, 1 <= p <= numPages pdf ->
     exists i b, nth_error bs i = Some b /\ In p b /\
       forall j b', nth_error bs j = Some b' -> In p b' -> j = i) /\
  Forall (fun b => b <> [] /\ length b <= MAX_PAGES_PER_BATCH) bs /\
  Forall (fun b => 2 <= length b ->
                   (batchChars pdf b <= MAX_CHARS_PER_BATCH)%N) bs /\
  (forall p, 1 <= p <= numPages pdf ->
     (MAX_CHARS_PER_BATCH < pageTextLength pdf p)%N -> In [p] bs).
Proof.
  intros bs. destruct (calculateDynamicBatches_ok pdf) as [Hc Hok].
  fold bs in Hc, Hok.
  assert (forall p, 1 <= p <= numPages pdf -> exists b, In b bs /\ In p b) as Hcover.
  { intros p Hp. apply in_concat. rewrite Hc. apply in_seq. lia. }
  repeat split.
  - exact Hc.
  - rewrite <- length_concat, Hc. apply length_seq.
  - intros p Hp. destruct (Hcover p Hp) as (b & Hb & Hpb).
    destruct (In_nth_error _ _ Hb) as [i Hi].
    exists i, b. repeat split; [assumption..|].
    intros j b' Hj Hpb'.
    eapply (concat_batch_index bs); [|eassumption..].
    rewrite Hc. apply NoDup_seq.
  - eapply Forall_impl; [exact Hok|]. intros b (Hne & Hlen & _). now split.
  - eapply Forall_impl; [exact Hok|]. intros b (_ & _ & Hcap). exact Hcap.
  - intros p Hp Hbig. destruct (Hcover p Hp) as (b & Hb & Hpb).
    rewrite Forall_forall in Hok. destruct (Hok b) as (Hne & _ & Hcap).
    { now apply list_elem_of_In. }
    pose proof (pageTextLength_le_batchChars pdf b p Hpb) as Hle.
    destruct b as [|x [|y b]].
    + contradiction.
    + destruct Hpb as [-> | []]. exact Hb.
    + exfalso. assert (2 <= length (x :: y :: b)) as H2 by (simpl; lia).
      specialize (Hcap H2). lia.
Qed.

(** ** AIGateway *)

Lemma retryRounds_S (onRetry : bool) (d : Z) (k : nat) :
  retryRounds onRetry d (S k) =
  retryRound onRetry d ++ retryRounds onRetry (d * 2) k.
Proof. reflexivity. Qed.

Lemma backoffDelays_S (d : Z) (k : nat) :
  backoffDelays d (S k) = d :: backoffDelays (d * 2) k.
Proof.
  unfold backoffDelays. simpl. f_equal; [lia|].
  rewrite <- seq_shift, map_map. apply map_ext. intros i.
  rewrite Nat2Z.inj_succ, Z.pow_succ_r by lia. lia.
Qed.

Lemma delaysOf_app (a b : list RetryEvent) :
  delaysOf (a ++ b) = delaysOf a ++ delaysOf b.
Proof. apply flat_map_app. Qed.

Lemma reportedOf_app (a b : list RetryEvent) :
  reportedOf (a ++ b) = reportedOf a ++ reportedOf b.
Proof. apply flat_map_app. Qed.

Lemma invocationsOf_app (a b : list RetryEvent) :
  invocationsOf (a ++ b) = invocationsOf a + invocationsOf b.
Proof. unfold invocationsOf. now rewrite List.filter_app, length_app. Qed.

Lemma delaysOf_rounds (onRetry : bool) (d : Z) (k : nat) :
  delaysOf (retryRounds onRetry d k) = backoffDelays d k.
Proof.
  revert d. induction k as [|k IH]; intros d; [reflexivity|].
  rewrite backoffDelays_S, retryRounds_S, delaysOf_app, IH.
  destruct onRetry; reflexivity.
Qed.

Lemma reportedOf_rounds (onRetry : bool) (d : Z) (k : nat) :
  reportedOf (retryRounds onRetry d k) =
  if onRetry then backoffDelays d k else [].
Proof.
  revert d. induction k as [|k IH]; intros d.
  - now destruct onRetry.
  - rewrite retryRounds_S, reportedOf_app, IH, backoffDelays_S.
    destruct onRetry; reflexivity.
Qed.

Lemma invocationsOf_rounds (onRetry : bool) (d : Z) (k : nat) :
  invocationsOf (retryRounds onRetry d k) = k.
Proof.
  revert d. induction k as [|k IH]; intros d; [reflexivity|].
  rewrite retryRounds_S, invocationsOf_app, IH.
  destruct onRetry; reflexivity.
Qed.

Section Retry.
Context {T : Type}.
Variable fn : nat -> Outcome T.
Variable onRetry : bool.

(** [k] rate-limited attempts within the budget are each retried. *)
Lemma retry_unroll (k retries : nat) (d : Z) (calls : nat) :
  k <= retries -> rateLimited fn calls k ->
  retryWithBackoff fn retries d onRetry calls =
  let '(res, n, evs) :=
    retryWithBackoff fn (retries - k) (d * 2 ^ Z.of_nat k) onRetry (calls + k) in
  (res, n, retryRounds onRetry d k ++ evs).
Proof.
  revert retries d calls. induction k as [|k IH]; intros retries d calls Hk Hrl.
  - simpl. rewrite Nat.sub_0_r, Nat.add_0_r, Z.mul_1_r.
    now destruct (retryWithBackoff _ _ _ _ _) as [[res n] evs].
  - destruct retries as [|retries]; [lia|].
    destruct (Hrl 0 ltac:(lia)) as (e & He & Hrate).
    rewrite Nat.add_0_r in He.
    simpl retryWithBackoff at 1. rewrite He, Hrate.
    rewrite (IH retries (d * 2)%Z (S calls)); [|lia|].
    + replace (S retries - S k) with (retries - k) by lia.
      replace (S calls + k) with (calls + S k) by lia.
      replace (d * 2 * 2 ^ Z.of_nat k)%Z with (d * 2 ^ Z.of_nat (S k))%Z
        by (rewrite Nat2Z.inj_succ, Z.pow_succ_r by lia; lia).
      destruct (retryWithBackoff _ _ _ _ _) as [[res n] evs].
      rewrite retryRounds_S. unfold retryRound. simpl.
      now rewrite <- !app_assoc.
    + intros i Hi. replace (S calls + i) with (calls + S i) by lia.
      apply Hrl. lia.
Qed.

Lemma retry_then_resolved (k retries : nat) (d : Z) (v : T) :
  k <= retries -> rateLimited fn 0 k -> fn k = Resolved v ->
  retryWithBackoff fn retries d onRetry 0 =
  (Resolved v, S k, retryRounds onRetry d k ++ [Invoke]).
Proof.
  intros Hk Hrl Hv. rewrite (retry_unroll k) by assumption.
  simpl. destruct (retries - k); simpl; now rewrite Hv.
Qed.

Lemma retry_then_other_error (k retries : nat) (d : Z) (e : JsError) :
  k <= retries -> rateLimited fn 0 k ->
  fn k = Rejected e -> isRateLimit e = false ->
  retryWithBackoff fn retries d onRetry 0 =
  (Rejected e, S k, retryRounds onRetry d k ++ [Invoke]).
Proof.
  intros Hk Hrl He Hno. rewrite (retry_unroll k) by assumption.
  simpl. destruct (retries - k); simpl; now rewrite He, ?Hno.
Qed.

Lemma retry_exhausted (retries : nat) (d : Z) (e : JsError) :
  rateLimited fn 0 retries -> fn retries = Rejected e ->
  retryWithBackoff fn retries d onRetry 0 =
  (Rejected e, S retries, retryRounds onRetry d retries ++ [Invoke]).
Proof.
  intros Hrl He. rewrite (retry_unroll retries) by (assumption || lia).
  rewrite Nat.sub_diag. simpl. now rewrite He.
Qed.
End Retry.

(** C2. With the default budget (5 retries, initial delay 2000 ms), for
    every wrapped call [fn] whose first [k <= 5] attempts fail with a
    rate-limit-class error:
    - if attempt [k+1] succeeds, the wrapper resolves with its value
      after exactly [k+1] invocations;
    - if attempt [k+1] fails with an error that is not rate-limit-class,
      that error propagates at once, after exactly [k+1] invocations;
    - if [k = 5] and the sixth attempt fails too, whatever its class,
      the budget is exhausted and that last error propagates.
    In each case the trace is [k] rounds of: invoke, report the delay to
    [onRetry] (when supplied), wait that delay; then the last
    invocation. The delays waited for are [2000 * 2^0 .. 2000 * 2^(k-1)],
    and the same delays are the ones reported. *)
Theorem C2_retry_backoff_schedule (T : Type) (fn : nat -> Outcome T)
    (onRetry : bool) (k : nat) :
  k <= DEFAULT_RETRIES ->
  rateLimited fn 0 k ->
  let run := retryWithBackoff fn DEFAULT_RETRIES DEFAULT_DELAY onRetry 0 in
  let trace := retryRounds onRetry DEFAULT_DELAY k ++ [Invoke] in
  (invocationsOf trace = k + 1 /\
   delaysOf trace = backoffDelays 2000 k /\
   reportedOf trace = if onRetry then backoffDelays 2000 k else []) /\
  (forall v, fn k = Resolved v -> run = (Resolved v, k + 1, trace)) /\
  (forall e, fn k = Rejected e -> isRateLimit e = false ->
             run = (Rejected e, k + 1, trace)) /\
  (forall e, k = DEFAULT_RETRIES -> fn k = Rejected e ->
             run = (Rejected e, k + 1, trace)).
Proof.
  intros Hk Hrl run trace. subst run trace. rewrite Nat.add_1_r.
  repeat split.
  - rewrite invocationsOf_app, invocationsOf_rounds.
    change (invocationsOf [Invoke]) with 1. lia.
  - rewrite delaysOf_app, delaysOf_rounds. simpl. apply app_nil_r.
  - rewrite reportedOf_app, reportedOf_rounds. simpl. apply app_nil_r.
  - intros v Hv. now apply retry_then_resolved.
  - intros e He Hno. now apply retry_then_other_error.
  - intros e -> He. now apply retry_exhausted.
Qed.

Lemma flakyCall_rateLimited : rateLimited flakyCall 0 3.
Proof.
  intros i Hi. exists quotaError.
  destruct i as [|[|[|i]]]; [split; reflexivity..|lia].
Qed.

Lemma C2_retry_backoff_schedule_witness :
  retryWithBackoff flakyCall DEFAULT_RETRIES DEFAULT_DELAY true 0 =
  (Resolved 7, 4,
   [Invoke; Warn 2000; OnRetry 2000; Delay 2000;
    Invoke; Warn 4000; OnRetry 4000; Delay 4000;
    Invoke; Warn 8000; OnRetry 8000; Delay 8000;
    Invoke]%Z).
Proof.
  destruct (C2_retry_backoff_schedule nat flakyCall true 3
              ltac:(unfold DEFAULT_RETRIES; lia) flakyCall_rateLimited)
    as (_ & Hok & _).
  exact (Hok 7 eq_refl).
Defined.

(** The classifier on representative errors. *)
Example isRateLimit_status :
  isRateLimit {| err_status := Some 429%Z; err_code := None; err_message := None |} = true.
Proof. reflexivity. Qed.

Example isRateLimit_code :
  isRateLimit {| err_status := None; err_code := Some 429%Z; err_message := None |} = true.
Proof. reflexivity. Qed.

Example isRateLimit_message_case_insensitive :
  isRateLimit quotaError = true /\
  isRateLimit {| err_status := None; err_code := None;
                 err_message := Some "You exceeded your current QuOtA" |} = true /\
  isRateLimit {| err_status := None; err_code := None;
                 err_message := Some "got status 429 from upstream" |} = true.
Proof. repeat split; reflexivity. Qed.

Example isRateLimit_other : isRateLimit serverError = false.
Proof. reflexivity. Qed.

(** A call failing once with a non-rate-limit error is invoked once. *)
Example retry_nonRateLimit_once :
  retryWithBackoff (fun _ => @Rejected nat serverError)
    DEFAULT_RETRIES DEFAULT_DELAY true 0 = (Rejected serverError, 1, [Invoke]).
Proof. reflexivity. Qed.

(** A call that is always rate limited is invoked six times, waits
    2 s, 4 s, 8 s, 16 s and 32 s, and fails with the last error. *)
Example retry_exhausts_budget :
  let '(res, n, evs) :=
    retryWithBackoff (fun _ => @Rejected nat quotaError)
      DEFAULT_RETRIES DEFAULT_DELAY false 0 in
  res = Rejected quotaError /\ n = 6 /\
  delaysOf evs = [2000; 4000; 8000; 16000; 32000]%Z /\ reportedOf evs = [].
Proof. repeat split; reflexivity. Qed.

(** ** The filename convention

    [getPageNum] and [getIndexNum] read back the page and the index
    that [imageName] wrote. *)

Lemma parseDigits_stop (s : string) (acc : nat) :
  stopsDigits s -> parseDigits s acc = acc.
Proof. destruct s as [|c s]; simpl; [reflexivity|]. now intros ->. Qed.

Lemma append_assoc (a b c : string) : (a +:+ b) +:+ c = a +:+ (b +:+ c).
Proof. induction a as [|x a IH]; simpl; [reflexivity | now rewrite IH]. Qed.

Lemma append_nil_r (a : string) : a +:+ EmptyString = a.
Proof. induction a as [|x a IH]; simpl; [reflexivity | now rewrite IH]. Qed.

Lemma parseDigits_uint (d : Decimal.uint) (rest : string) (acc : nat) :
  stopsDigits rest ->
  parseDigits (NilEmpty.string_of_uint d +:+ rest) acc = Nat.of_uint_acc d acc.
Proof.
  intros Hstop. revert acc.
  induction d as [|d IH|d IH|d IH|d IH|d IH|d IH|d IH|d IH|d IH|d IH];
    intros acc;
    cbn [NilEmpty.string_of_uint String.append parseDigits Nat.of_uint_acc].
  1: now apply parseDigits_stop.
  all: eval_digitOf; rewrite IH, Nat.tail_mul_spec; f_equal; lia.
Qed.

Lemma to_uint_nonnil (n : nat) : Nat.to_uint n <> Decimal.Nil.
Proof.
  intros Hnil. pose proof (DecimalNat.Unsigned.of_to n) as Hn.
  rewrite Hnil in Hn. simpl in Hn. subst n. discriminate Hnil.
Qed.

(** [parseInt] reads a printed number back, whatever follows it. *)
Lemma parseInt_decimal (n : nat) (rest : string) :
  stopsDigits rest -> parseInt (decimal n +:+ rest) = Num (Z.of_nat n).
Proof.
  intros Hstop. unfold parseInt, decimal.
  pose proof (parseDigits_uint (Nat.to_uint n) rest 0 Hstop) as Hparse.
  change (Nat.of_uint_acc (Nat.to_uint n) 0) with (Nat.of_uint (Nat.to_uint n)) in Hparse.
  rewrite DecimalNat.Unsigned.of_to in Hparse.
  pose proof (to_uint_nonnil n) as Hnn.
  destruct (Nat.to_uint n) as [|d|d|d|d|d|d|d|d|d|d]; [contradiction|..];
    cbn [NilEmpty.string_of_uint String.append] in *;
    eval_digitOf; now rewrite Hparse.
Qed.

(** A separator that does not start with a digit never matches inside
    a printed number: the digits go to the current piece. *)
Lemma split_aux_digits (c0 : ascii) (sep' : string) (d : Decimal.uint)
    (cur rest : string) :
  digitOf c0 = None ->
  split_aux (String c0 sep') 0 cur (NilEmpty.string_of_uint d +:+ rest) =
  split_aux (String c0 sep') 0 (cur +:+ NilEmpty.string_of_uint d) rest.
Proof.
  intros Hsep. revert cur.
  induction d as [|d IH|d IH|d IH|d IH|d IH|d IH|d IH|d IH|d IH|d IH];
    intros cur;
    cbn [NilEmpty.string_of_uint String.append split_aux String.prefix].
  1: now rewrite append_nil_r.
  all: destruct (ascii_dec c0 _) as [->|_]; [discriminate Hsep|].
  all: rewrite IH, append_assoc; reflexivity.
Qed.

Lemma split_aux_decimal (c0 : ascii) (sep' : string) (n : nat) (cur rest : string) :
  digitOf c0 = None ->
  split_aux (String c0 sep') 0 cur (decimal n +:+ rest) =
  split_aux (String c0 sep') 0 (cur +:+ decimal n) rest.
Proof. apply split_aux_digits. Qed.

Lemma prefix_empty (s : string) : String.prefix EmptyString s = true.
Proof. now destruct s. Qed.

Lemma split_page_imageName (p i : nat) :
  split "_p" (imageName p i) =
  ["image"; decimal p +:+ "_i" +:+ decimal i +:+ ".jpg"].
Proof.
  unfold split, imageName. simpl. rewrite prefix_empty.
  rewrite split_aux_decimal by reflexivity. simpl.
  rewrite split_aux_decimal by reflexivity. simpl.
  now rewrite !append_assoc.
Qed.

Lemma split_index_imageName (p i : nat) :
  split "_i" (imageName p i) = ["image_p" +:+ decimal p; decimal i +:+ ".jpg"].
Proof.
  unfold split, imageName. simpl.
  rewrite split_aux_decimal by reflexivity. simpl. rewrite prefix_empty.
  rewrite split_aux_decimal by reflexivity. simpl.
  now rewrite !append_assoc.
Qed.

Lemma split_underscore_head (p : nat) (rest : string) :
  exists pieces, split "_" (decimal p +:+ "_" +:+ rest) = decimal p :: pieces.
Proof.
  unfold split. rewrite split_aux_decimal by reflexivity.
  simpl. rewrite prefix_empty. eauto.
Qed.

Lemma split_dot_head (i : nat) (rest : string) :
  exists pieces, split "." (decimal i +:+ "." +:+ rest) = decimal i :: pieces.
Proof.
  unfold split. rewrite split_aux_decimal by reflexivity.
  simpl. rewrite prefix_empty. eauto.
Qed.

Lemma parseInt_decimal_exact (n : nat) : parseInt (decimal n) = Num (Z.of_nat n).
Proof.
  rewrite <- (append_nil_r (decimal n)). now apply parseInt_decimal.
Qed.

(** The comparator's two readers invert [imageName]. *)
Lemma getPageNum_imageName (p i : nat) :
  getPageNum (imageName p i) = Some (Num (Z.of_nat p)).
Proof.
  unfold getPageNum, parseField. rewrite split_page_imageName.
  destruct (split_underscore_head p ("i" +:+ decimal i +:+ ".jpg")) as [pieces Hs].
  simpl in Hs. simpl. rewrite Hs. now rewrite parseInt_decimal_exact.
Qed.

Lemma getIndexNum_imageName (p i : nat) :
  getIndexNum (imageName p i) = Some (Num (Z.of_nat i)).
Proof.
  unfold getIndexNum, parseField. rewrite split_index_imageName.
  destruct (split_dot_head i "jpg") as [pieces Hs].
  simpl in Hs. simpl. rewrite Hs. now rewrite parseInt_decimal_exact.
Qed.

Lemma COVER_NAME_imageName : COVER_NAME = imageName 1 1.
Proof. reflexivity. Qed.

(** ** ImageExtractor: the sort *)

Lemma pageIndexOf_imageName (img : ProcessedImage) (p i : nat) :
  name img = imageName p i ->
  pageIndexOf img = Some (Z.of_nat p, Z.of_nat i).
Proof.
  intros Hn. unfold pageIndexOf.
  now rewrite Hn, getPageNum_imageName, getIndexNum_imageName.
Qed.

Lemma compareImages_keys (a b : ProcessedImage) (ka kb : Z * Z) :
  pageIndexOf a = Some ka -> pageIndexOf b = Some kb ->
  compareImages a b =
  Some (Num (if (ka.1 =? kb.1)%Z then ka.2 - kb.2 else ka.1 - kb.1)%Z).
Proof.
  unfold pageIndexOf, compareImages. intros Ha Hb.
  destruct (getPageNum (name a)) as [[pa|]|]; try discriminate.
  destruct (getIndexNum (name a)) as [[ia|]|]; try discriminate.
  destruct (getPageNum (name b)) as [[pb|]|]; try discriminate.
  destruct (getIndexNum (name b)) as [[ib|]|]; try discriminate.
  injection Ha as <-. injection Hb as <-. simpl.
  now destruct (pa =? pb)%Z.
Qed.

Lemma compareImages_negative (a b : ProcessedImage) (ka kb : Z * Z) :
  pageIndexOf a = Some ka -> pageIndexOf b = Some kb ->
  exists v, compareImages a b = Some v /\
            (isNegative v = true -> keyLt ka kb) /\
            (isNegative v = false -> keyLe kb ka).
Proof.
  intros Ha Hb. rewrite (compareImages_keys a b ka kb Ha Hb).
  eexists. split; [reflexivity|].
  unfold keyLt, keyLe. simpl.
  destruct (ka.1 =? kb.1)%Z eqn:E;
    [apply Z.eqb_eq in E | apply Z.eqb_neq in E];
    split; intros H; first [apply Z.ltb_lt in H | apply Z.ltb_ge in H]; lia.
Qed.

Lemma keyLe_trans (a b c : Z * Z) : keyLe a b -> keyLe b c -> keyLe a c.
Proof. unfold keyLe. lia. Qed.

Lemma keyLt_le (a b : Z * Z) : keyLt a b -> keyLe a b.
Proof. unfold keyLt, keyLe. lia. Qed.

Lemma keyLe_antisym (a b : Z * Z) : keyLe a b -> keyLe b a -> a = b.
Proof. unfold keyLe. destruct a, b. simpl. intros. f_equal; lia. Qed.

Lemma byPageIndex_le_trans (a b c : ProcessedImage) :
  byPageIndex keyLe a b -> byPageIndex keyLe b c -> byPageIndex keyLe a c.
Proof.
  intros (ka & kb & Ha & Hb & Hab) (kb' & kc & Hb' & Hc & Hbc).
  rewrite Hb in Hb'. injection Hb' as <-.
  exists ka, kc. eauto using keyLe_trans.
Qed.

(** Inserting an image whose name parses into a sorted list of such
    images succeeds and keeps the list sorted. *)
Lemma sortInsert_sorted (x : ProcessedImage) (sorted : list ProcessedImage) :
  parses x -> Forall parses sorted ->
  StronglySorted (byPageIndex keyLe) sorted ->
  exists out, sortInsert compareImages x sorted = Some out /\
              Permutation (x :: sorted) out /\
              StronglySorted (byPageIndex keyLe) out.
Proof.
  intros [kx Hx]. induction sorted as [|y rest IH]; intros Hall Hsorted.
  - exists [x]. repeat split; [reflexivity|]. repeat constructor.
  - apply Forall_cons in Hall as [[ky Hy] Hrest].
    apply StronglySorted_inv in Hsorted as [Hsrest Hy_le].
    destruct (compareImages_negative x y kx ky Hx Hy) as (v & Hv & Hneg & Hpos).
    simpl. rewrite Hv. destruct (isNegative v) eqn:Esign.
    + exists (x :: y :: rest). repeat split; [reflexivity|].
      assert (byPageIndex keyLe x y) as Hxy
        by (exists kx, ky; eauto using keyLt_le).
      constructor; [constructor; assumption|].
      constructor; [assumption|].
      eapply List.Forall_impl; [|exact Hy_le].
      intros z Hyz. eapply byPageIndex_le_trans; eassumption.
    + destruct (IH Hrest Hsrest) as (out & Hout & Hperm & Hsout).
      rewrite Hout. exists (y :: out). repeat split.
      * rewrite perm_swap. now constructor.
      * constructor; [assumption|].
        eapply Permutation_Forall; [exact Hperm|].
        constructor; [|assumption].
        exists ky, kx. eauto.
Qed.

Lemma jsSortFrom_sorted (rest sorted : list ProcessedImage) :
  Forall parses sorted -> Forall parses rest ->
  StronglySorted (byPageIndex keyLe) sorted ->
  exists out, jsSortFrom compareImages sorted rest = Some out /\
              Permutation (sorted ++ rest) out /\
              StronglySorted (byPageIndex keyLe) out.
Proof.
  revert sorted. induction rest as [|x rest IH]; intros sorted Hs Hr Hsorted.
  - exists sorted. rewrite app_nil_r. now repeat split.
  - apply Forall_cons in Hr as [Hx Hr].
    destruct (sortInsert_sorted x sorted Hx Hs Hsorted) as (s' & Hins & Hperm & Hs').
    simpl. rewrite Hins.
    destruct (IH s') as (out & Hout & Hperm' & Hsout); [|assumption..|].
    + eapply Permutation_Forall; [exact Hperm|]. now constructor.
    + exists out. repeat split; [assumption| |assumption].
      rewrite <- Hperm', <- Hperm. simpl. symmetry. apply Permutation_middle.
Qed.

(** [sort] with the comparator never throws on names that parse, and
    returns a sorted permutation. *)
Lemma jsSort_compareImages (l : list ProcessedImage) :
  Forall parses l ->
  exists out, jsSort compareImages l = Some out /\
              Permutation l out /\
              StronglySorted (byPageIndex keyLe) out.
Proof.
  intros Hl. apply (jsSortFrom_sorted l []); [constructor | assumption | constructor].
Qed.

(** ** ImageExtractor: what the tasks push *)

Lemma processOperators_names (pageNum : nat) (ops : list Operator) (i0 : nat) :
  map name (processOperators pageNum i0 ops) =
  map (imageName pageNum) (seq i0 (length (processOperators pageNum i0 ops))).
Proof.
  revert i0. induction ops as [|op ops IH]; intros i0; [reflexivity|].
  simpl. destruct (processOperator pageNum i0 op) as [img|] eqn:Eop.
  - simpl. rewrite <- IH. f_equal.
    unfold processOperator in Eop.
    repeat match type of Eop with
           | match ?d with _ => _ end = Some _ => destruct d; try discriminate
           | (if ?c then _ else _) = Some _ => destruct c; try discriminate
           end;
      now injection Eop as <-.
  - apply IH.
Qed.

(** The images of page [p] are named [image_p<p>_i1], [image_p<p>_i2],
    ... in the order they are pushed. *)
Lemma processPage_names (ctx : nat -> bool) (pdf : PdfDoc) (p : nat) :
  map name (processPage ctx pdf p) =
  map (imageName p) (seq 1 (length (processPage ctx pdf p))).
Proof.
  unfold processPage.
  destruct (negb (ctx p)); [reflexivity|].
  destruct (negb (pg_load (getPage pdf p))); [reflexivity|].
  destruct (p =? 1) eqn:Ep.
  - apply Nat.eqb_eq in Ep as ->.
    destruct (pg_render (getPage pdf 1)) as [[blob|]|]; reflexivity.
  - destruct (pg_ops (getPage pdf p)); [|reflexivity].
    apply processOperators_names.
Qed.

Lemma interleaving_Permutation {A : Type} (tasks : list (list A)) (l : list A) :
  interleaving tasks l -> Permutation (concat tasks) l.
Proof.
  induction 1 as [tasks Hnil | pre x t post l _ IH].
  - induction Hnil as [|t tasks -> _ IH]; [constructor | exact IH].
  - rewrite concat_app in *. simpl in *.
    rewrite <- Permutation_middle. now constructor.
Qed.

Lemma pushedBy_Permutation (ctx : nat -> bool) (pdf : PdfDoc)
    (groups : list (list nat)) (l : list ProcessedImage) :
  pushedBy ctx pdf groups l ->
  Permutation (flat_map (processPage ctx pdf) (concat groups)) l.
Proof.
  induction 1 as [|g gs l ls Hil _ IH]; [constructor|].
  simpl. rewrite flat_map_app. apply Permutation_app; [|exact IH].
  rewrite flat_map_concat_map. now apply interleaving_Permutation.
Qed.

(** The groups cover the pages [i..numPages] in order. *)
Lemma pageGroupsFrom_concat (fuel i n : nat) :
  n + 1 - i <= fuel ->
  concat (pageGroupsFrom fuel i n) = seq i (n + 1 - i).
Proof.
  revert i. induction fuel as [|fuel IH]; intros i Hfuel.
  - now replace (n + 1 - i) with 0 by lia.
  - simpl. destruct (i <=? n) eqn:Ei.
    + apply Nat.leb_le in Ei. simpl.
      rewrite IH by (unfold CONCURRENCY; lia).
      unfold groupPages, CONCURRENCY.
      destruct (Nat.le_gt_cases (n + 1 - i) 4) as [Hsmall | Hbig].
      * rewrite Nat.min_r by lia.
        replace (n + 1 - (i + 4)) with 0 by lia. apply app_nil_r.
      * rewrite Nat.min_l by lia.
        rewrite <- (List.seq_app 4 (n + 1 - (i + 4)) i). f_equal. lia.
    + apply Nat.leb_gt in Ei. now replace (n + 1 - i) with 0 by lia.
Qed.

Lemma pageGroups_concat (n : nat) : concat (pageGroups n) = seq 1 n.
Proof.
  unfold pageGroups. rewrite pageGroupsFrom_concat by lia.
  f_equal. lia.
Qed.

Lemma extractAndProcessImages_inPageOrder (ctx : nat -> bool) (pdf : PdfDoc) :
  extractAndProcessImages ctx pdf = sortAndReturn pdf (inPageOrder ctx pdf).
Proof.
  unfold extractAndProcessImages, inPageOrder. f_equal.
  rewrite <- pageGroups_concat.
  generalize (pageGroups (numPages pdf)) as groups.
  induction groups as [|g groups IH]; simpl; [reflexivity|].
  now rewrite flat_map_app, IH.
Qed.

(** *** Page order is sorted order *)

Lemma StronglySorted_app {A : Type} (R : A -> A -> Prop) (l1 l2 : list A) :
  StronglySorted R l1 -> StronglySorted R l2 ->
  (forall a b, In a l1 -> In b l2 -> R a b) ->
  StronglySorted R (l1 ++ l2).
Proof.
  induction 1 as [|a l1 Hs IH Ha]; intros H2 Hcross; [exact H2|].
  simpl. constructor.
  - apply IH; [assumption|]. intros x y Hx Hy. apply Hcross; [now right | assumption].
  - apply List.Forall_app. split; [assumption|].
    apply List.Forall_forall. intros y Hy. apply Hcross; [now left | assumption].
Qed.

(** Images named after consecutive indices of one page. *)
Lemma consecutive_sorted (p : nat) (l : list ProcessedImage) (i0 : nat) :
  map name l = map (imageName p) (seq i0 (length l)) ->
  sortedByPageIndex l /\
  Forall (fun img => exists i, i0 <= i /\ name img = imageName p i) l.
Proof.
  revert i0. induction l as [|img l IH]; intros i0 Hnames.
  - split; constructor.
  - simpl in Hnames. injection Hnames as Himg Hrest.
    destruct (IH (S i0) Hrest) as [Hsorted Hall]. split.
    + constructor; [assumption|].
      eapply List.Forall_impl; [|exact Hall].
      intros b (i & Hi & Hb).
      exists (Z.of_nat p, Z.of_nat i0), (Z.of_nat p, Z.of_nat i).
      repeat split; [now apply pageIndexOf_imageName..|].
      right. simpl. lia.
    + constructor; [eauto|].
      eapply List.Forall_impl; [|exact Hall].
      intros b (i & Hi & Hb). exists i. split; [lia | assumption].
Qed.

(** The images of the pages [s, s+1, ...] in page order are strictly
    sorted, and each is named after a page from [s] on. *)
Lemma pagesFrom_sorted (ctx : nat -> bool) (pdf : PdfDoc) (n s : nat) :
  let l := flat_map (processPage ctx pdf) (seq s n) in
  sortedByPageIndex l /\
  Forall (fun img => exists p i, s <= p /\ name img = imageName p i) l.
Proof.
  revert s. induction n as [|n IH]; intros s; [split; constructor|].
  simpl. destruct (IH (S s)) as [Hsorted Hall].
  destruct (consecutive_sorted s (processPage ctx pdf s) 1
              (processPage_names ctx pdf s)) as [Hpage Hpage_all].
  rewrite List.Forall_forall in Hall, Hpage_all. split.
  - apply StronglySorted_app; [assumption..|].
    intros a b Ha Hb.
    destruct (Hpage_all a Ha) as (i & _ & Hna).
    destruct (Hall b Hb) as (q & j & Hq & Hnb).
    exists (Z.of_nat s, Z.of_nat i), (Z.of_nat q, Z.of_nat j).
    repeat split; [now apply pageIndexOf_imageName..|].
    left. simpl. lia.
  - apply List.Forall_app. split; apply List.Forall_forall.
    + intros a Ha. destruct (Hpage_all a Ha) as (i & _ & Hna). eauto.
    + intros b Hb. destruct (Hall b Hb) as (q & j & Hq & Hnb).
      exists q, j. split; [lia | assumption].
Qed.

Lemma inPageOrder_sorted (ctx : nat -> bool) (pdf : PdfDoc) :
  sortedByPageIndex (inPageOrder ctx pdf).
Proof. apply (pagesFrom_sorted ctx pdf (numPages pdf) 1). Qed.

Lemma inPageOrder_parses (ctx : nat -> bool) (pdf : PdfDoc) :
  Forall parses (inPageOrder ctx pdf).
Proof.
  destruct (pagesFrom_sorted ctx pdf (numPages pdf) 1) as [_ Hall].
  eapply List.Forall_impl; [|exact Hall].
  intros img (p & i & _ & Hn). unfold parses.
  now rewrite (pageIndexOf_imageName img p i Hn).
Qed.

(** *** A sorted arrangement is unique *)

Lemma keyLt_irrefl (k : Z * Z) : ~ keyLt k k.
Proof. unfold keyLt. lia. Qed.

Lemma sorted_key_inj (l : list ProcessedImage) :
  sortedByPageIndex l ->
  forall a b, In a l -> In b l -> pageIndexOf a = pageIndexOf b -> a = b.
Proof.
  induction 1 as [|x l Hs IH Hx]; intros a b Ha Hb Hkey; [contradiction|].
  rewrite List.Forall_forall in Hx.
  assert (forall y, In y l -> pageIndexOf x <> pageIndexOf y) as Hfresh.
  { intros y Hy Heq. destruct (Hx y Hy) as (kx & ky & Hkx & Hky & Hlt).
    rewrite Hkx, Hky in Heq. injection Heq as ->. now apply keyLt_irrefl in Hlt. }
  destruct Ha as [<- | Ha], Hb as [<- | Hb].
  - reflexivity.
  - now apply Hfresh in Hb.
  - symmetry in Hkey. now apply Hfresh in Ha.
  - now apply IH.
Qed.

Lemma sorted_strict_le (l : list ProcessedImage) :
  sortedByPageIndex l -> StronglySorted (byPageIndex keyLe) l.
Proof.
  induction 1 as [|x l Hs IH Hx]; constructor; [assumption|].
  eapply List.Forall_impl; [|exact Hx].
  intros y (kx & ky & Hkx & Hky & Hlt). exists kx, ky. eauto using keyLt_le.
Qed.

Lemma sorted_perm_unique (l1 l2 : list ProcessedImage) :
  StronglySorted (byPageIndex keyLe) l1 ->
  StronglySorted (byPageIndex keyLe) l2 ->
  Permutation l1 l2 ->
  (forall a b, In a l1 -> In b l1 -> pageIndexOf a = pageIndexOf b -> a = b) ->
  l1 = l2.
Proof.
  intros Hs1. revert l2. induction Hs1 as [|a l1 Hs1 IH Ha]; intros l2 Hs2 Hperm Hinj.
  - now apply Permutation_nil in Hperm.
  - destruct Hs2 as [|b l2 Hs2 Hb].
    { symmetry in Hperm. now apply Permutation_nil in Hperm. }
    rewrite List.Forall_forall in Ha, Hb.
    assert (In b (a :: l1)) as Hb1
      by (eapply Permutation_in; [symmetry; exact Hperm | now left]).
    assert (In a (b :: l2)) as Ha2
      by (eapply Permutation_in; [exact Hperm | now left]).
    assert (a = b) as <-.
    { destruct Hb1 as [Hab | Hb1]; [assumption|].
      destruct Ha2 as [Hba | Ha2]; [now symmetry|].
      apply Hinj; [now left | now right |].
      destruct (Ha b Hb1) as (ka & kb & Hka & Hkb & Hle).
      destruct (Hb a Ha2) as (kb' & ka' & Hkb' & Hka' & Hle').
      rewrite Hka in Hka'. rewrite Hkb in Hkb'.
      injection Hka' as <-. injection Hkb' as <-.
      rewrite Hka, Hkb. f_equal. now apply keyLe_antisym. }
    f_equal. apply IH; [assumption | now apply Permutation_cons_inv in Hperm |].
    intros x y Hx Hy. apply Hinj; now right.
Qed.

(** Whatever the arrival order, the sort restores page order. *)
Lemma sortAndReturn_pushed (ctx : nat -> bool) (pdf : PdfDoc)
    (processedImages : list ProcessedImage) :
  pushedBy ctx pdf (pageGroups (numPages pdf)) processedImages ->
  sortAndReturn pdf processedImages =
  Some {| images := inPageOrder ctx pdf; totalPages := numPages pdf |}.
Proof.
  intros Hpushed. apply pushedBy_Permutation in Hpushed.
  rewrite pageGroups_concat in Hpushed. fold (inPageOrder ctx pdf) in Hpushed.
  pose proof (inPageOrder_sorted ctx pdf) as Hsorted.
  destruct (jsSort_compareImages processedImages) as (out & Hout & Hperm & Hs).
  { eapply Permutation_Forall; [exact Hpushed | apply inPageOrder_parses]. }
  unfold sortAndReturn. rewrite Hout. do 2 f_equal. symmetry.
  apply sorted_perm_unique.
  - now apply sorted_strict_le.
  - exact Hs.
  - now rewrite Hpushed.
  - now apply sorted_key_inj.
Qed.

(** Runs exist: the tasks may complete one after the other. *)
Lemma interleaving_idle {A : Type} (tasks : list (list A)) (l : list A) :
  interleaving tasks l -> interleaving ([] :: tasks) l.
Proof.
  induction 1 as [tasks Hnil | pre x t post l _ IH].
  - constructor. now constructor.
  - exact (interleaving_push ([] :: pre) x t post l IH).
Qed.

Lemma interleaving_sequential {A : Type} (tasks : list (list A)) :
  interleaving tasks (concat tasks).
Proof.
  induction tasks as [|t tasks IH]; [repeat constructor|].
  simpl. induction t as [|x t IHt].
  - now apply interleaving_idle.
  - exact (interleaving_push [] x t tasks _ IHt).
Qed.

Lemma pushedBy_sequential (ctx : nat -> bool) (pdf : PdfDoc) (groups : list (list nat)) :
  pushedBy ctx pdf groups (flat_map (flat_map (processPage ctx pdf)) groups).
Proof.
  induction groups as [|g groups IH]; [constructor|].
  simpl. constructor; [|exact IH].
  rewrite flat_map_concat_map. apply interleaving_sequential.
Qed.

Lemma extractRun_sequential (ctx : nat -> bool) (pdf : PdfDoc) :
  extractRun ctx pdf (extractAndProcessImages ctx pdf).
Proof. eexists. split; [apply pushedBy_sequential | reflexivity]. Qed.

(** C3. For every document and every completion order of the concurrent
    page tasks, [extractAndProcessImages] returns the same list: the
    images in page order, which is strictly sorted by (page number,
    index) as parsed from the names [image_p<page>_i<index>.jpg]. The
    comparator never throws on these names, so every run returns. *)
Theorem C3_sorted_whatever_the_interleaving (ctx : nat -> bool) (pdf : PdfDoc)
    (r1 r2 : option ImageExtractionResult) :
  extractRun ctx pdf r1 -> extractRun ctx pdf r2 ->
  r1 = r2 /\
  exists res, r1 = Some res /\
              totalPages res = numPages pdf /\
              images res = inPageOrder ctx pdf /\
              sortedByPageIndex (images res).
Proof.
  intros (l1 & Hl1 & ->) (l2 & Hl2 & ->).
  rewrite (sortAndReturn_pushed ctx pdf l1 Hl1), (sortAndReturn_pushed ctx pdf l2 Hl2).
  split; [reflexivity|]. eexists. split; [reflexivity|].
  simpl. repeat split. apply inPageOrder_sorted.
Qed.

Lemma sampleArrival_pushed :
  pushedBy everyCtx samplePdf (pageGroups (numPages samplePdf)) sampleArrival.
Proof.
  change sampleArrival with (sampleArrival ++ []).
  change (pageGroups (numPages samplePdf)) with [[1; 2; 3]].
  constructor; [|constructor].
  change (map (processPage everyCtx samplePdf) [1; 2; 3]) with
    [[coverImage "cover"]; [extracted 2 1 "b"; extracted 2 2 "d"]; [extracted 3 1 "e"]].
  unfold sampleArrival.
  apply (interleaving_push [[coverImage "cover"]; [extracted 2 1 "b"; extracted 2 2 "d"]]
           (extracted 3 1 "e") [] []).
  apply (interleaving_push [[coverImage "cover"]]
           (extracted 2 1 "b") [extracted 2 2 "d"] [[]]).
  apply (interleaving_push [] (coverImage "cover") [] [[extracted 2 2 "d"]; []]).
  apply (interleaving_push [[]] (extracted 2 2 "d") [] [[]]).
  constructor. repeat constructor.
Qed.

Lemma C3_sorted_whatever_the_interleaving_witness :
  sortAndReturn samplePdf sampleArrival = extractAndProcessImages everyCtx samplePdf /\
  exists res, sortAndReturn samplePdf sampleArrival = Some res /\
              totalPages res = 3 /\
              images res = inPageOrder everyCtx samplePdf /\
              sortedByPageIndex (images res).
Proof.
  apply (C3_sorted_whatever_the_interleaving everyCtx samplePdf).
  - exists sampleArrival. split; [exact sampleArrival_pushed | reflexivity].
  - exists (inPageOrder everyCtx samplePdf). split; [|reflexivity].
    exact (pushedBy_sequential everyCtx samplePdf [[1; 2; 3]]).
Defined.

(** The sample, computed: the arrival order is gone after the sort. *)
Example sampleArrival_sorted :
  sortAndReturn samplePdf sampleArrival =
  Some {| images := [coverImage "cover"; extracted 2 1 "b"; extracted 2 2 "d";
                     extracted 3 1 "e"];
          totalPages := 3 |}.
Proof. vm_compute. reflexivity. Qed.

(** ** ImageExtractor: the first page *)

Lemma imagesOfPage_app (p : Z) (l1 l2 : list ProcessedImage) :
  imagesOfPage p (l1 ++ l2) = imagesOfPage p l1 ++ imagesOfPage p l2.
Proof. apply List.filter_app. Qed.

Lemma imagesOfPage_same (p : nat) (l : list ProcessedImage) :
  Forall (fun img => exists i, name img = imageName p i) l ->
  imagesOfPage (Z.of_nat p) l = l.
Proof.
  induction 1 as [|img l (i & Hn) _ IH]; [reflexivity|].
  unfold imagesOfPage in *. simpl.
  rewrite Hn, getPageNum_imageName, Z.eqb_refl. now f_equal.
Qed.

Lemma imagesOfPage_other (p : nat) (l : list ProcessedImage) :
  Forall (fun img => exists q i, q <> p /\ name img = imageName q i) l ->
  imagesOfPage (Z.of_nat p) l = [].
Proof.
  induction 1 as [|img l (q & i & Hq & Hn) _ IH]; [reflexivity|].
  unfold imagesOfPage in *. simpl.
  rewrite Hn, getPageNum_imageName.
  destruct (Z.eqb_spec (Z.of_nat q) (Z.of_nat p)); [lia | exact IH].
Qed.

Lemma processPage_named (ctx : nat -> bool) (pdf : PdfDoc) (p : nat) :
  Forall (fun img => exists i, name img = imageName p i) (processPage ctx pdf p).
Proof.
  destruct (consecutive_sorted p (processPage ctx pdf p) 1
              (processPage_names ctx pdf p)) as [_ Hall].
  eapply List.Forall_impl; [|exact Hall]. intros img (i & _ & Hn). eauto.
Qed.

Lemma imagesOfPage_inPageOrder (ctx : nat -> bool) (pdf : PdfDoc) :
  imagesOfPage 1 (inPageOrder ctx pdf) =
  if 1 <=? numPages pdf then processPage ctx pdf 1 else [].
Proof.
  unfold inPageOrder. destruct (numPages pdf) as [|n]; [reflexivity|].
  simpl. rewrite imagesOfPage_app.
  rewrite (imagesOfPage_same 1) by apply processPage_named.
  rewrite (imagesOfPage_other 1); [apply app_nil_r|].
  destruct (pagesFrom_sorted ctx pdf n 2) as [_ Hall].
  eapply List.Forall_impl; [|exact Hall].
  intros img (q & i & Hq & Hn). exists q, i. split; [lia | assumption].
Qed.

Lemma processPage_cover (ctx : nat -> bool) (pdf : PdfDoc) :
  (if 1 <=? numPages pdf then processPage ctx pdf 1 else []) =
  match coverOf ctx pdf with
  | Some blob => [coverImage blob]
  | None => []
  end.
Proof.
  unfold coverOf, processPage.
  destruct (1 <=? numPages pdf), (ctx 1), (pg_load (getPage pdf 1)); simpl;
    try reflexivity.
  now destruct (pg_render (getPage pdf 1)) as [[blob|]|].
Qed.

(** C7, as the code has it. For every document and every completion
    order, the result holds at most one image of page 1. When the
    document has a first page, its task gets a canvas context, the page
    loads, the whole-page render resolves and [toBlob] yields a blob,
    that image is the render of the whole page, named
    [image_p1_i1.jpg]; otherwise the failure is swallowed and the result
    holds no image of page 1. The operator list of page 1 is never
    read: replacing it changes nothing. *)
Theorem C7_cover_present_iff_first_page_renders (ctx : nat -> bool) (pdf : PdfDoc)
    (r : option ImageExtractionResult) :
  extractRun ctx pdf r ->
  exists res, r = Some res /\
    imagesOfPage 1 (images res) =
      match coverOf ctx pdf with
      | Some blob => [coverImage blob]
      | None => []
      end /\
    forall ops, coverOf ctx (setPageOps pdf 1 ops) = coverOf ctx pdf.
Proof.
  intros (pushed & Hpushed & ->).
  rewrite (sortAndReturn_pushed ctx pdf pushed Hpushed).
  eexists. split; [reflexivity|]. split.
  - simpl. now rewrite imagesOfPage_inPageOrder, processPage_cover.
  - intros ops. unfold coverOf, setPageOps. simpl.
    now destruct (1 <=? numPages pdf), (ctx 1).
Qed.

Lemma C7_cover_present_iff_first_page_renders_witness :
  exists res, extractAndProcessImages everyCtx samplePdf = Some res /\
    imagesOfPage 1 (images res) = [coverImage "cover"] /\
    forall ops, coverOf everyCtx (setPageOps samplePdf 1 ops) = Some "cover".
Proof.
  exact (C7_cover_present_iff_first_page_renders everyCtx samplePdf _
           (extractRun_sequential everyCtx samplePdf)).
Defined.

(** The claim fails where the first page cannot be rendered: the
    document has a first page with an embedded photo, and the result
    holds no image of page 1. *)
Lemma C7_counterexample_render_fails :
  1 <= numPages brokenCoverPdf /\
  extractAndProcessImages everyCtx brokenCoverPdf =
    Some {| images := [extracted 2 1 "b"]; totalPages := 2 |} /\
  imagesOfPage 1 [extracted 2 1 "b"] = [] /\
  ~ (exists img, In img [extracted 2 1 "b"] /\ name img = COVER_NAME).
Proof.
  repeat split.
  - simpl. lia.
  - intros (img & [<- | []] & Hname). discriminate Hname.
Qed.

(** ** ImageCaptioner *)

Lemma alter_identityOf (d : option json) (i : nat) (l : list ProcessedImage) :
  map identityOf (alter (setDescription d) i l) = map identityOf l.
Proof.
  revert i. induction l as [|img l IH]; intros [|i]; simpl; try reflexivity.
  f_equal. apply IH.
Qed.

Lemma applyItem_identityOf (item : json) (st st' : list ProcessedImage) :
  applyItem item st = Some st' -> map identityOf st' = map identityOf st.
Proof.
  unfold applyItem. destruct st as [|img st]; [now intros [= <-]|].
  destruct (getProp "name" item) as [itemName|]; [|discriminate].
  destruct (findIndex _ _) as [idx|]; [|now intros [= <-]].
  destruct (getProp "description" item) as [d|]; [|discriminate].
  intros [= <-]. apply alter_identityOf.
Qed.

Lemma applyItems_identityOf (items : list json) (st : list ProcessedImage) :
  map identityOf (applyItems items st).1 = map identityOf st.
Proof.
  revert st. induction items as [|item items IH]; intros st; [reflexivity|].
  simpl. destruct (applyItem item st) as [st'|] eqn:E; [|reflexivity].
  rewrite IH. exact (applyItem_identityOf item st st' E).
Qed.

(** Whatever the service does, a batch changes no name, data or type. *)
Lemma tryBatch_identityOf (env : CaptionEnv) (i : nat) (parts : list ImagePart)
    (st : list ProcessedImage) :
  map identityOf (tryBatch env i parts st).1.1 = map identityOf st.
Proof.
  unfold tryBatch.
  destruct (retryWithBackoff _ _ _ _ _) as [[[response|e] n] tr]; [|reflexivity].
  destruct (text response) as [[|c s]|]; try reflexivity.
  destruct (env_JSON_parse env _) as [[| | | |items|]|]; try reflexivity.
  pose proof (applyItems_identityOf items st) as Hid.
  destruct (applyItems items st) as [st' []]; exact Hid.
Qed.

Lemma batchParts_filenames (env : CaptionEnv) (batch : list ProcessedImage)
    (parts : list ImagePart) :
  batchParts env batch = Some parts -> map part_filename parts = map name batch.
Proof.
  revert parts. induction batch as [|img batch IH]; intros parts; simpl.
  - now intros [= <-].
  - destruct (env_blobToBase64 env (data img)); [|discriminate].
    destruct (batchParts env batch) as [parts'|]; [|discriminate].
    intros [= <-]. simpl. f_equal. now apply IH.
Qed.

Lemma batchParts_converts (env : CaptionEnv) (batch : list ProcessedImage) :
  blobsConvert env batch -> is_Some (batchParts env batch).
Proof.
  induction batch as [|img batch IH]; intros Hconv; simpl; [eauto|].
  destruct (Hconv img (or_introl eq_refl)) as [b64 ->].
  destruct IH as [parts ->]; [|eauto].
  intros x Hx. apply Hconv. now right.
Qed.

Lemma slice_In {A : Type} (i j : nat) (l : list A) (x : A) :
  In x (slice i j l) -> In x l.
Proof.
  unfold slice. intros Hx%list_elem_of_In. apply list_elem_of_In.
  now apply (subseteq_drop i l), (subseteq_take (j - i)).
Qed.

(** The loop keeps whatever every batch keeps. *)
Lemma captionLoop_invariant (env : CaptionEnv) (contentImages : list ProcessedImage)
    (P : list ProcessedImage -> Prop) :
  (forall i parts st,
      batchParts env (slice i (i + BATCH_SIZE) contentImages) = Some parts ->
      P st -> P (tryBatch env i parts st).1.1) ->
  forall fuel i st,
    P st -> P (completionImages (captionLoop env contentImages fuel i st).1).
Proof.
  intros Hbatch. induction fuel as [|fuel IH]; intros i st Hst; [exact Hst|].
  simpl. destruct (i <? length contentImages); [|exact Hst].
  destruct (batchParts env _) as [parts|] eqn:Eparts; [|exact Hst].
  specialize (Hbatch i parts st Eparts Hst).
  destruct (tryBatch env i parts st) as [[st' evs] caught].
  specialize (IH (i + BATCH_SIZE) st' Hbatch).
  now destruct (captionLoop env contentImages fuel (i + BATCH_SIZE) st') as [res evs'].
Qed.

(** When the blobs convert, the loop returns. *)
Lemma captionLoop_returns (env : CaptionEnv) (contentImages : list ProcessedImage) :
  blobsConvert env contentImages ->
  forall fuel i st,
    exists captioned evs,
      captionLoop env contentImages fuel i st = (Returns captioned, evs).
Proof.
  intros Hconv. induction fuel as [|fuel IH]; intros i st; [simpl; eauto|].
  simpl. destruct (i <? length contentImages); [|eauto].
  destruct (batchParts_converts env (slice i (i + BATCH_SIZE) contentImages))
    as [parts ->].
  { intros img Himg. eapply Hconv, slice_In, Himg. }
  destruct (tryBatch env i parts st) as [[st' evs] caught].
  destruct (IH (i + BATCH_SIZE) st') as (captioned & evs' & ->). eauto.
Qed.

(** Fuel beyond the number of images left changes nothing: the fuel
    [generateImageCaptions] gives the loop never runs out. *)
Lemma captionLoop_fuel (env : CaptionEnv) (contentImages : list ProcessedImage)
    (fuel fuel' i : nat) (st : list ProcessedImage) :
  length contentImages - i <= fuel -> length contentImages - i <= fuel' ->
  captionLoop env contentImages fuel i st = captionLoop env contentImages fuel' i st.
Proof.
  revert fuel' i st. induction fuel as [|fuel IH]; intros fuel' i st Hf Hf'.
  - destruct fuel' as [|fuel']; [reflexivity|]. simpl.
    destruct (Nat.ltb_spec i (length contentImages)); [lia | reflexivity].
  - destruct fuel' as [|fuel']; simpl;
      destruct (Nat.ltb_spec i (length contentImages)); try reflexivity; try lia.
    destruct (batchParts env _) as [parts|]; [|reflexivity].
    destruct (tryBatch env i parts st) as [[st' evs] caught].
    rewrite (IH fuel' (i + BATCH_SIZE) st'); unfold BATCH_SIZE; [reflexivity | lia..].
Qed.

(** The [try] block logs no request of its own. *)
Lemma tryBatch_events (env : CaptionEnv) (i : nat) (parts : list ImagePart)
    (st : list ProcessedImage) :
  Forall (fun e => forall j ps, e <> Sent j ps) (tryBatch env i parts st).1.2.
Proof.
  unfold tryBatch.
  destruct (retryWithBackoff _ _ _ _ _) as [[[response|e] n] tr];
    [|now repeat constructor].
  assert (Forall (fun e => forall j ps, e <> Sent j ps)
            match usageMetadata response with
            | Some total => [TokenUsage (default 0%N total)]
            | None => []
            end) as Husage
    by (destruct (usageMetadata response); now repeat constructor).
  destruct (text response) as [[|c s]|]; simpl;
    try (apply List.Forall_app; split; [exact Husage | now repeat constructor]).
  destruct (env_JSON_parse env _) as [[| | | |items|]|]; simpl;
    try (apply List.Forall_app; split; [exact Husage | now repeat constructor]).
  destruct (applyItems items st) as [st' []]; simpl;
    apply List.Forall_app; split; (exact Husage || now repeat constructor).
Qed.

(** Every request is built from one slice of the content images. *)
Lemma captionLoop_sent (env : CaptionEnv) (contentImages : list ProcessedImage)
    (fuel i : nat) (st : list ProcessedImage) (j : nat) (parts : list ImagePart) :
  In (Sent j parts) (captionLoop env contentImages fuel i st).2 ->
  batchParts env (slice j (j + BATCH_SIZE) contentImages) = Some parts.
Proof.
  revert i st. induction fuel as [|fuel IH]; intros i st; simpl; [intros []|].
  destruct (i <? length contentImages); [|simpl; intros []].
  destruct (batchParts env (slice i (i + BATCH_SIZE) contentImages))
    as [parts'|] eqn:Eparts; [|simpl; intros []].
  pose proof (tryBatch_events env i parts' st) as Hevs.
  destruct (tryBatch env i parts' st) as [[st' evs] caught]. simpl in Hevs.
  specialize (IH (i + BATCH_SIZE) st').
  destruct (captionLoop env contentImages fuel (i + BATCH_SIZE) st') as [res evs'].
  simpl in *. intros [Hsent | Hin].
  - injection Hsent as <- <-. exact Eparts.
  - apply in_app_or in Hin as [Hin | [Hin | Hin]].
    + rewrite List.Forall_forall in Hevs. now destruct (Hevs _ Hin j parts).
    + discriminate Hin.
    + now apply IH.
Qed.

Lemma generateImageCaptions_identityOf (env : CaptionEnv) (images : list ProcessedImage) :
  map identityOf (completionImages (generateImageCaptions env images).1) =
  map identityOf images.
Proof.
  unfold generateImageCaptions. destruct (negb (env_apiKey env)); [reflexivity|].
  apply (captionLoop_invariant env _
           (fun st => map identityOf st = map identityOf images)); [|reflexivity].
  intros i parts st _ Hst. now rewrite tryBatch_identityOf.
Qed.

Lemma generateImageCaptions_returns (env : CaptionEnv) (images : list ProcessedImage) :
  env_apiKey env = true -> blobsConvert env images ->
  exists captioned evs, generateImageCaptions env images = (Returns captioned, evs).
Proof.
  intros Hkey Hconv. unfold generateImageCaptions. rewrite Hkey. simpl.
  apply captionLoop_returns. intros img Himg. apply Hconv.
  now apply List.filter_In in Himg as [Himg _].
Qed.

(** C9. Whatever the pattern of failures of the batches:
    - a batch whose AI call fails after the retries is logged and
      skipped, and no image changes;
    - a batch whose response is not JSON is logged and skipped, and a
      response that is JSON but no array is skipped; no image changes;
    - when the credential is there and the blobs convert, the captioner
      returns, and what it returns is the full image list, in order,
      with every name, data and type as given (only descriptions can
      differ);
    - the captioning stage of [handleFileSelect] always ends with the
      full image list, also when the captioner throws: nothing escapes
      the stage. *)
Theorem C9_failed_batches_are_skipped (env : CaptionEnv) (images : list ProcessedImage) :
  (forall i parts st e n tr,
      retryWithBackoff (env_generateContent env i parts)
        DEFAULT_RETRIES DEFAULT_DELAY false 0 = (Rejected e, n, tr) ->
      tryBatch env i parts st = (st, [BatchFailed i], true)) /\
  (forall i parts st response n tr resultText,
      retryWithBackoff (env_generateContent env i parts)
        DEFAULT_RETRIES DEFAULT_DELAY false 0 = (Resolved response, n, tr) ->
      text response = Some resultText ->
      (env_JSON_parse env resultText = None ->
       resultText <> EmptyString ->
       (tryBatch env i parts st).1.1 = st /\
       In (BatchFailed i) (tryBatch env i parts st).1.2) /\
      (forall v, env_JSON_parse env resultText = Some v ->
                 (forall items, v <> JArr items) ->
                 (tryBatch env i parts st).1.1 = st)) /\
  (env_apiKey env = true -> blobsConvert env images ->
   exists captioned evs,
     generateImageCaptions env images = (Returns captioned, evs) /\
     map identityOf captioned = map identityOf images) /\
  map identityOf (analyzeImages env images) = map identityOf images.
Proof.
  split; [|split; [|split]].
  - intros i parts st e n tr Hretry. unfold tryBatch. now rewrite Hretry.
  - intros i parts st response n tr resultText Hretry Htext. split.
    + intros Hparse Hne. unfold tryBatch. rewrite Hretry, Htext.
      destruct resultText as [|c s]; [contradiction|]. rewrite Hparse.
      split; [reflexivity|]. apply in_or_app. right. now left.
    + intros v Hv Hnot. unfold tryBatch. rewrite Hretry, Htext.
      destruct resultText as [|c s]; [reflexivity|]. rewrite Hv.
      destruct v; try reflexivity. now destruct (Hnot items).
  - intros Hkey Hconv.
    destruct (generateImageCaptions_returns env images Hkey Hconv)
      as (captioned & evs & Hret).
    exists captioned, evs. split; [assumption|].
    pose proof (generateImageCaptions_identityOf env images) as Hid.
    now rewrite Hret in Hid.
  - unfold analyzeImages. destruct (0 <? length images); [|reflexivity].
    pose proof (generateImageCaptions_identityOf env images) as Hid.
    now destruct (generateImageCaptions env images) as [[captioned|sofar] evs].
Qed.

(** The samples, computed. *)
Example captions_all_calls_fail :
  generateImageCaptions failingEnv
    [coverImage "cover"; extracted 2 1 "b"; extracted 2 2 "d"] =
  (Returns [coverImage "cover"; extracted 2 1 "b"; extracted 2 2 "d"],
   [Sent 0 [ {| part_mimeType := "image/jpeg"; part_data := "b64:b";
                part_filename := "image_p2_i1.jpg" |};
             {| part_mimeType := "image/jpeg"; part_data := "b64:d";
                part_filename := "image_p2_i2.jpg" |} ];
    BatchFailed 0; Progress 2]).
Proof. vm_compute. reflexivity. Qed.

Example captions_not_json :
  generateImageCaptions garbledEnv [coverImage "cover"; extracted 2 1 "b"] =
  (Returns [coverImage "cover"; extracted 2 1 "b"],
   [Sent 0 [ {| part_mimeType := "image/jpeg"; part_data := "b64:b";
                part_filename := "image_p2_i1.jpg" |} ];
    TokenUsage 42; BatchFailed 0; Progress 1]).
Proof. vm_compute. reflexivity. Qed.

(** An array with a null entry: the entries before it are applied,
    then the exception is caught and the batch is logged as failed. *)
Example captions_null_entry :
  generateImageCaptions nullEntryEnv [coverImage "cover"; extracted 2 1 "b"] =
  (Returns [coverImage "cover";
            setDescription (Some (JStr "A photograph")) (extracted 2 1 "b")],
   [Sent 0 [ {| part_mimeType := "image/jpeg"; part_data := "b64:b";
                part_filename := "image_p2_i1.jpg" |} ];
    BatchFailed 0; Progress 1]).
Proof. vm_compute. reflexivity. Qed.

Example captions_after_one_retry :
  (generateImageCaptions helpfulEnv
     [coverImage "cover"; extracted 2 1 "b"; extracted 2 2 "d"]).1 =
  Returns [coverImage "cover";
           setDescription (Some (JStr "A photograph")) (extracted 2 1 "b");
           extracted 2 2 "d"].
Proof. vm_compute. reflexivity. Qed.

(** ** The cover's description *)

Lemma imageName_not_cover (p i : nat) : p <> 1 -> imageName p i <> COVER_NAME.
Proof.
  intros Hp Heq. pose proof (getPageNum_imageName p i) as Hpage.
  rewrite Heq, COVER_NAME_imageName, getPageNum_imageName in Hpage.
  injection Hpage as Hpage. lia.
Qed.

Lemma processOperators_undescribed (p i0 : nat) (ops : list Operator) :
  Forall (fun img => description img = None) (processOperators p i0 ops).
Proof.
  revert i0. induction ops as [|op ops IH]; intros i0; [constructor|].
  simpl. destruct (processOperator p i0 op) as [img|] eqn:Eop; [|apply IH].
  constructor; [|apply IH].
  unfold processOperator in Eop.
  repeat match type of Eop with
         | match ?d with _ => _ end = Some _ => destruct d; try discriminate
         | (if ?c then _ else _) = Some _ => destruct c; try discriminate
         end;
    now injection Eop as <-.
Qed.

(** What extraction leaves in [description]: the fixed string on the
    cover, nothing on every other image. *)
Lemma processPage_descriptions (ctx : nat -> bool) (pdf : PdfDoc) (p : nat) :
  Forall (fun img => description img =
                     if String.eqb (name img) COVER_NAME then COVER_DESCRIPTION else None)
         (processPage ctx pdf p).
Proof.
  pose proof (processPage_named ctx pdf p) as Hnamed.
  unfold processPage in *.
  destruct (negb (ctx p)); [constructor|].
  destruct (negb (pg_load (getPage pdf p))); [constructor|].
  destruct (p =? 1) eqn:Ep.
  - destruct (pg_render (getPage pdf p)) as [[blob|]|]; repeat constructor.
  - apply Nat.eqb_neq in Ep.
    destruct (pg_ops (getPage pdf p)) as [ops|]; [|constructor].
    pose proof (processOperators_undescribed p 1 ops) as Hnone.
    rewrite List.Forall_forall in *. intros img Himg.
    destruct (Hnamed img Himg) as [i Hn].
    rewrite (Hnone img Himg), Hn.
    destruct (String.eqb_spec (imageName p i) COVER_NAME) as [Heq|]; [|reflexivity].
    now apply imageName_not_cover in Heq.
Qed.

Lemma inPageOrder_descriptions (ctx : nat -> bool) (pdf : PdfDoc) (img : ProcessedImage) :
  In img (inPageOrder ctx pdf) ->
  description img = if String.eqb (name img) COVER_NAME then COVER_DESCRIPTION else None.
Proof.
  unfold inPageOrder. intros (p & _ & Himg)%in_flat_map.
  pose proof (processPage_descriptions ctx pdf p) as Hp.
  rewrite List.Forall_forall in Hp. now apply Hp.
Qed.

(** A value the wrapper resolves with is a value some invocation
    resolved with. *)
Lemma retry_resolved_by_fn {T : Type} (fn : nat -> Outcome T) (retries : nat)
    (d : Z) (onRetry : bool) (calls : nat) (v : T) (n : nat) (tr : list RetryEvent) :
  retryWithBackoff fn retries d onRetry calls = (Resolved v, n, tr) ->
  exists k, fn k = Resolved v.
Proof.
  revert d calls n tr. induction retries as [|retries IH]; intros d calls n tr; simpl.
  - destruct (fn calls) as [v'|e] eqn:E; intros [= <- _ _]. eauto.
  - destruct (fn calls) as [v'|e] eqn:E; [intros [= <- _ _]; eauto|].
    destruct (isRateLimit e); [|discriminate].
    destruct (retryWithBackoff fn retries (d * 2) onRetry (S calls))
      as [[res n'] tr'] eqn:Erec.
    intros [= -> _ _]. eauto.
Qed.

Lemma findIndex_Some {A : Type} (pred : A -> bool) (l : list A) (idx : nat) :
  findIndex pred l = Some idx -> exists x, l !! idx = Some x /\ pred x = true.
Proof.
  revert idx. induction l as [|y l IH]; intros idx; simpl; [discriminate|].
  destruct (pred y) eqn:Ey.
  - intros [= <-]. eauto.
  - destruct (findIndex pred l) as [j|]; [|discriminate].
    intros [= <-]. destruct (IH j eq_refl) as (x & Hx & Hp). eauto.
Qed.

Lemma In_alter {A : Type} (f : A -> A) (l : list A) (idx : nat) (x y : A) :
  l !! idx = Some x -> In y (alter f idx l) -> In y l \/ y = f x.
Proof.
  revert idx. induction l as [|z l IH]; intros [|idx]; simpl; try discriminate.
  - intros [= ->] [<- | Hy]; auto.
  - intros Hx [<- | Hy]; [auto|].
    destruct (IH idx Hx Hy); auto.
Qed.

(** An entry that does not name the cover leaves the cover alone. *)
Lemma applyItem_cover (item : json) (st st' : list ProcessedImage) :
  getProp "name" item <> Some (Some (JStr COVER_NAME)) ->
  applyItem item st = Some st' ->
  coverKeepsDescription st -> coverKeepsDescription st'.
Proof.
  intros Hname. unfold applyItem. destruct st as [|img0 st0]; [now intros [= <-]|].
  set (st := img0 :: st0).
  destruct (getProp "name" item) as [itemName|]; [|discriminate].
  destruct (findIndex (nameIs itemName) st) as [idx|] eqn:Eidx; [|now intros [= <-]].
  destruct (getProp "description" item) as [d|]; [|discriminate].
  intros [= <-] Hkeep img Himg Hcover.
  destruct (findIndex_Some _ _ _ Eidx) as (x & Hx & Hmatch).
  destruct (In_alter _ _ _ _ _ Hx Himg) as [Hold | ->]; [now apply Hkeep|].
  exfalso. apply Hname. simpl in Hcover.
  unfold nameIs in Hmatch. destruct itemName as [[| | |s| |]|]; try discriminate.
  apply String.eqb_eq in Hmatch. now rewrite <- Hmatch, Hcover.
Qed.

Lemma applyItems_cover (items : list json) (st : list ProcessedImage) :
  (forall item, In item items -> getProp "name" item <> Some (Some (JStr COVER_NAME))) ->
  coverKeepsDescription st -> coverKeepsDescription (applyItems items st).1.
Proof.
  revert st. induction items as [|item items IH]; intros st Hitems Hkeep; [exact Hkeep|].
  simpl. destruct (applyItem item st) as [st'|] eqn:E; [|exact Hkeep].
  apply IH; [intros it Hit; apply Hitems; now right|].
  eapply applyItem_cover; [|exact E|exact Hkeep]. apply Hitems. now left.
Qed.

(** A batch that does not hold the cover, answered as instructed,
    leaves the cover alone. *)
Lemma tryBatch_cover (env : CaptionEnv) (i : nat) (parts : list ImagePart)
    (st : list ProcessedImage) :
  responsesConform env ->
  ~ In COVER_NAME (map part_filename parts) ->
  coverKeepsDescription st -> coverKeepsDescription (tryBatch env i parts st).1.1.
Proof.
  intros Hconform Hnocover Hkeep. unfold tryBatch.
  destruct (retryWithBackoff _ _ _ _ _) as [[[response|e] n] tr] eqn:Eretry;
    [|exact Hkeep].
  destruct (retry_resolved_by_fn _ _ _ _ _ _ _ _ Eretry) as [k Hk].
  destruct (text response) as [[|c s]|] eqn:Etext; try exact Hkeep.
  destruct (env_JSON_parse env _) as [[| | | |items|]|] eqn:Eparse; try exact Hkeep.
  pose proof (applyItems_cover items st) as Hitems.
  destruct (applyItems items st) as [st' []]; simpl in *; apply Hitems; try exact Hkeep.
  all: intros item Hitem Hname; apply Hnocover;
    exact (Hconform i parts k response _ items item COVER_NAME Hk Etext Eparse Hitem Hname).
Qed.

(** No request of the captioner holds the cover. *)
Lemma contentParts_no_cover (env : CaptionEnv) (images : list ProcessedImage)
    (i : nat) (parts : list ImagePart) :
  batchParts env
    (slice i (i + BATCH_SIZE)
       (List.filter (fun img => negb (String.eqb (name img) COVER_NAME)) images)) =
    Some parts ->
  ~ In COVER_NAME (map part_filename parts).
Proof.
  intros Hparts. rewrite (batchParts_filenames _ _ _ Hparts).
  intros (img & Hname & Himg)%in_map_iff.
  apply slice_In, List.filter_In in Himg as [_ Hne].
  rewrite Hname in Hne. now rewrite String.eqb_refl in Hne.
Qed.

Lemma generateImageCaptions_cover (env : CaptionEnv) (images : list ProcessedImage) :
  responsesConform env -> coverKeepsDescription images ->
  coverKeepsDescription (completionImages (generateImageCaptions env images).1).
Proof.
  intros Hconform Hkeep. unfold generateImageCaptions.
  destruct (negb (env_apiKey env)); [exact Hkeep|].
  apply captionLoop_invariant; [|exact Hkeep].
  intros i parts st Hparts Hst.
  apply tryBatch_cover; [assumption | | assumption].
  eapply contentParts_no_cover, Hparts.
Qed.

(** C10. In every result of [extractAndProcessImages] the cover
    [image_p1_i1.jpg] already carries the description
    ['Magazine Cover'] and every other image carries none. The captioner
    puts the cover in no request; so when the service answers as
    instructed (its entries name images of the request), the cover
    leaves the captioner, and the captioning stage, with the
    description the extractor gave it. *)
Theorem C10_cover_described_by_extractor (ctx : nat -> bool) (pdf : PdfDoc)
    (r : option ImageExtractionResult) (env : CaptionEnv) :
  extractRun ctx pdf r ->
  exists res, r = Some res /\
    (forall img, In img (images res) ->
       description img =
       if String.eqb (name img) COVER_NAME then Some (JStr "Magazine Cover") else None) /\
    (forall j parts,
       In (Sent j parts) (generateImageCaptions env (images res)).2 ->
       ~ In COVER_NAME (map part_filename parts)) /\
    (responsesConform env ->
       coverKeepsDescription
         (completionImages (generateImageCaptions env (images res)).1) /\
       coverKeepsDescription (analyzeImages env (images res))).
Proof.
  intros (pushed & Hpushed & ->).
  rewrite (sortAndReturn_pushed ctx pdf pushed Hpushed).
  eexists. split; [reflexivity|]. simpl.
  assert (coverKeepsDescription (inPageOrder ctx pdf)) as Hkeep.
  { intros img Himg Hcover.
    rewrite (inPageOrder_descriptions ctx pdf img Himg), Hcover.
    now rewrite String.eqb_refl. }
  split; [|split].
  - apply inPageOrder_descriptions.
  - intros j parts. unfold generateImageCaptions.
    destruct (negb (env_apiKey env)); [intros []|].
    intros Hsent%captionLoop_sent. eapply contentParts_no_cover, Hsent.
  - intros Hconform.
    pose proof (generateImageCaptions_cover env _ Hconform Hkeep) as Hafter.
    split; [exact Hafter|].
    unfold analyzeImages. destruct (0 <? length _); [|exact Hkeep].
    now destruct (generateImageCaptions env (inPageOrder ctx pdf)) as [[l|l] evs].
Qed.

Lemma helpfulEnv_conforms : responsesConform helpfulEnv.
Proof.
  intros i parts k response resultText items item itemName Hresp Htext Hparse Hitem Hname.
  destruct k as [|k]; [discriminate|]. simpl in Hresp. injection Hresp as <-.
  simpl in Htext. injection Htext as <-. simpl in Hparse.
  destruct (existsb _ parts) eqn:Eparts.
  - vm_compute in Hparse. injection Hparse as <-.
    destruct Hitem as [<- | []]. vm_compute in Hname. injection Hname as <-.
    apply existsb_exists in Eparts as (part & Hpart & Heq%String.eqb_eq).
    apply in_map_iff. eauto.
  - vm_compute in Hparse. injection Hparse as <-. destruct Hitem.
Qed.

Lemma C10_cover_described_by_extractor_witness :
  exists res, extractAndProcessImages everyCtx samplePdf = Some res /\
    (forall img, In img (images res) ->
       description img =
       if String.eqb (name img) COVER_NAME then Some (JStr "Magazine Cover") else None) /\
    (forall j parts,
       In (Sent j parts) (generateImageCaptions helpfulEnv (images res)).2 ->
       ~ In COVER_NAME (map part_filename parts)) /\
    coverKeepsDescription
      (completionImages (generateImageCaptions helpfulEnv (images res)).1) /\
    coverKeepsDescription (analyzeImages helpfulEnv (images res)).
Proof.
  destruct (C10_cover_described_by_extractor everyCtx samplePdf _ helpfulEnv
              (extractRun_sequential everyCtx samplePdf))
    as (res & Hres & Hdescr & Hsent & Hfinal).
  exists res. repeat split; try assumption; now apply Hfinal, helpfulEnv_conforms.
Defined.

(** The sample, end to end: extraction, then captioning. *)
Example sample_extract_then_caption :
  (fun res => analyzeImages helpfulEnv (images res))
    <$> extractAndProcessImages everyCtx samplePdf =
  Some [coverImage "cover";
        setDescription (Some (JStr "A photograph")) (extracted 2 1 "b");
        extracted 2 2 "d"; extracted 3 1 "e"].
Proof. vm_compute. reflexivity. Qed.

(** ** PackageAssembler: the archive *)








Section Package.
Variables (uniqueId timestamp title : string).
Variable markdownContent : list Block.
Variable images : list ProcessedImage.

Local Abbreviation pkg :=
  (generateEpub uniqueId timestamp title markdownContent images).







End Package.



Lemma sampleImages_unique : NoDup (map name sampleImages).
Proof.
  simpl. apply NoDup_cons. split; [|apply NoDup_singleton].
  intros Hin%list_elem_of_In. destruct Hin as [Heq | []]. discriminate Heq.
Qed.


(** ** PackageAssembler: headings and the table of contents *)





(** The state after a document, and the headings' HTML in its body. *)
Lemma parseBlocks_state (blocks : list Block) (st : RenderState) :
  (parseBlocks blocks st).2 =
  {| headerCount := headerCount st + length (headingsOf blocks);
     toc := toc st ++ tocFrom (headerCount st) (headingsOf blocks) |}.
Proof.
  revert st. induction blocks as [|b blocks IH]; intros st.
  - simpl. rewrite Nat.add_0_r, app_nil_r. now destruct st.
  - simpl. destruct (renderBlock b st) as [html st1] eqn:Eb.
    specialize (IH st1). destruct (parseBlocks blocks st1) as [html' st2].
    simpl in *. rewrite IH. clear IH.
    destruct b as [depth tokens|tokens| |raw]; simpl in Eb; injection Eb as <- <-;
      simpl; rewrite ?Nat.add_0_r; try reflexivity.
    unfold tocEntryOf, sectionId. simpl.
    rewrite <- Nat.add_succ_comm. f_equal.
    destruct (depth <=? 2); simpl; now rewrite <- ?app_assoc.
Qed.


Lemma generateEpub_toc (uniqueId timestamp title : string)
    (markdownContent : list Block) (images : list ProcessedImage) :
  pkg_toc (generateEpub uniqueId timestamp title markdownContent images) =
  tocFrom 0 (headingsOf markdownContent).
Proof.
  unfold generateEpub.
  pose proof (parseBlocks_state markdownContent {| headerCount := 0; toc := [] |}) as Hst.
  destruct (parseBlocks markdownContent _) as [body st]. simpl in *. now rewrite Hst.
Qed.











(** Every entry comes from a heading of depth 1 or 2. *)
Lemma tocFrom_only (n : nat) (hs : list (nat * list Inline)) (e : TocItem) :
  In e (tocFrom n hs) ->
  exists k h, nth_error hs k = Some h /\ h.1 <= 2 /\ e = tocEntryOf (n + k) h.
Proof.
  revert n. induction hs as [|h hs IH]; intros n; [intros []|].
  simpl. intros [Hhead | Htail]%in_app_or.
  - destruct (Nat.leb_spec h.1 2); [|destruct Hhead].
    destruct Hhead as [<- | []]. exists 0, h. rewrite Nat.add_0_r. auto.
  - destruct (IH (S n) Htail) as (k & h' & Hk & Hd & ->).
    exists (S k), h'. rewrite <- Nat.add_succ_comm. auto.
Qed.



(** ** Escaping *)

Lemma replaceChar_app (c : ascii) (by_ a b : string) :
  replaceChar c by_ (a +:+ b) = replaceChar c by_ a +:+ replaceChar c by_ b.
Proof.
  induction a as [|x a IH]; [reflexivity|].
  simpl. destruct (Ascii.eqb x c); simpl; rewrite IH; [|reflexivity].
  now rewrite append_assoc.
Qed.

(** The five passes of [escapeXml] amount to one pass that maps each
    character by [escapeChar]: no replacement text holds a character a
    later pass replaces. *)
Lemma escapeXml_cons (c : ascii) (s : string) :
  escapeXml (String c s) = escapeChar c +:+ escapeXml s.
Proof.
  unfold escapeXml, escapeChar. cbn [replaceChar].
  destruct (Ascii.eqb_spec c "&") as [->|Hamp].
  { now rewrite !replaceChar_app. }
  cbn [replaceChar]. destruct (Ascii.eqb_spec c "<") as [->|Hlt].
  { now rewrite !replaceChar_app. }
  cbn [replaceChar]. destruct (Ascii.eqb_spec c ">") as [->|Hgt].
  { now rewrite !replaceChar_app. }
  cbn [replaceChar]. destruct (Ascii.eqb_spec c "034") as [->|Hquot].
  { now rewrite !replaceChar_app. }
  cbn [replaceChar]. destruct (Ascii.eqb_spec c "'") as [->|Hapos].
  { reflexivity. }
  reflexivity.
Qed.


Lemma attrSafe_app (a b : string) : attrSafe (a +:+ b) = attrSafe a && attrSafe b.
Proof.
  induction a as [|c a IH]; [reflexivity|]. simpl. now rewrite IH, andb_assoc.
Qed.

Lemma escapeChar_attrSafe (c : ascii) : attrSafe (escapeChar c) = true.
Proof.
  unfold escapeChar.
  destruct (Ascii.eqb c "&") eqn:Eamp; [reflexivity|].
  destruct (Ascii.eqb c "<") eqn:Elt; [reflexivity|].
  destruct (Ascii.eqb c ">") eqn:Egt; [reflexivity|].
  destruct (Ascii.eqb c "034") eqn:Equot; [reflexivity|].
  destruct (Ascii.eqb c "'") eqn:Eapos; [reflexivity|].
  simpl. unfold attrChar. now rewrite Elt, Egt, Equot, Eapos.
Qed.

(** An escaped text holds no angle bracket and no quote. *)
Lemma escapeXml_attrSafe (s : string) : attrSafe (escapeXml s) = true.
Proof.
  induction s as [|c s IH]; [reflexivity|].
  now rewrite escapeXml_cons, attrSafe_app, escapeChar_attrSafe, IH.
Qed.



(** ** Inline tokens *)









(** ** PackageAssembler: image references *)








(** ** Stripping the tags of a heading *)



(** Outside a tag, a text without ['<'] is kept whole. *)
Lemma stripTagsFrom_noOpen (s : string) :
  noOpen s = true -> stripTagsFrom false s = s /\ endsInTag false s = false.
Proof.
  induction s as [|c s IH]; [now split|].
  simpl. intros [Hc Hs]%andb_true_iff. apply negb_true_iff in Hc. rewrite Hc.
  destruct (IH Hs) as [-> ->]. now split.
Qed.




#[local] Arguments escapeXml : simpl never.






(** ** PackageAssembler: the claim on the table of contents *)




(** The headings of the sample, as they stand in the content document. *)
Example sample_heading_html :
  headingHtml 0 (1, [IText "Title"]) = tpl "<h1 id=`section-0`>Title</h1>" +:+ nl /\
  headingHtml 1 (2, [IText "Sub"]) = tpl "<h2 id=`section-1`>Sub</h2>" +:+ nl.
Proof. split; reflexivity. Qed.


(* ===================================================================== *)
(** * Part IV: further properties of the code                            *)
(* ===================================================================== *)

(** ** BatchPlanner *)

Lemma closedWhenFull_snoc (pdf : PdfDoc) (bs : list (list nat)) (b b' : list nat) :
  closedWhenFull pdf (bs ++ [b]) ->
  (forall p, head b' = Some p -> didNotFit pdf b p) ->
  closedWhenFull pdf (bs ++ [b; b']).
Proof.
  induction bs as [|x bs IH]; intros Hbs Hfit.
  - simpl. auto.
  - change ((x :: bs) ++ [b; b']) with (x :: (bs ++ [b; b'])).
    change ((x :: bs) ++ [b]) with (x :: (bs ++ [b])) in Hbs.
    destruct bs as [|y bs]; simpl in *.
    + destruct Hbs as [Hx _]. auto.
    + destruct Hbs as [Hx Hrest]. split; [exact Hx|]. now apply IH.
Qed.

Lemma closedWhenFull_grow (pdf : PdfDoc) (bs : list (list nat)) (b : list nat) (i : nat) :
  b <> [] -> closedWhenFull pdf (bs ++ [b]) -> closedWhenFull pdf (bs ++ [b ++ [i]]).
Proof.
  intros Hne. induction bs as [|x bs IH]; intros Hbs; [exact I|].
  change ((x :: bs) ++ [b ++ [i]]) with (x :: (bs ++ [b ++ [i]])).
  change ((x :: bs) ++ [b]) with (x :: (bs ++ [b])) in Hbs.
  destruct bs as [|y bs]; simpl in *.
  - destruct Hbs as [Hx _]. split; [|exact I].
    intros p Hp. apply Hx. destruct b; [contradiction | exact Hp].
  - destruct Hbs as [Hx Hrest]. split; [exact Hx|]. now apply IH.
Qed.

(** The loop keeps the closed batches, followed by the open one, closed
    when full. *)
Lemma batchLoop_closedWhenFull (pdf : PdfDoc) (n k : nat) (st : BatchState) :
  batch_inv pdf k st ->
  (currentBatch st = [] -> batches st = []) ->
  closedWhenFull pdf (batches st ++ [currentBatch st]) ->
  let st' := batchLoop pdf (seq (S k) n) st in
  (currentBatch st' = [] -> batches st' = []) /\
  closedWhenFull pdf (batches st' ++ [currentBatch st']).
Proof.
  revert k st. induction n as [|n IH]; intros k st Hinv Hempty Hclosed; [now split|].
  simpl. apply (IH (S k)); [now apply batchStep_inv | |]; unfold batchStep;
    destruct ((_ || _) && _) eqn:Eclose; cbn [batches currentBatch]; try discriminate.
  - intros Hnil. now destruct (currentBatch st).
  - apply andb_true_iff in Eclose as [Hfull Hne%Nat.ltb_lt].
    rewrite <- app_assoc. apply closedWhenFull_snoc; [exact Hclosed|].
    intros p [= <-]. apply orb_true_iff in Hfull as [Htext%N.ltb_lt | Hpages%Nat.leb_le].
    + right. now rewrite <- (inv_chars pdf k st Hinv).
    + left. pose proof (inv_len pdf k st Hinv). lia.
  - destruct (currentBatch st) as [|p cur] eqn:Ecur.
    + rewrite (Hempty eq_refl). exact I.
    + now apply closedWhenFull_grow.
Qed.

(** X1. The planner is greedy: a batch is closed only when the next
    page does not fit it. For every two consecutive batches, the first
    one has [MAX_PAGES_PER_BATCH] pages, or its estimated characters
    plus those of the first page of the second one exceed
    [MAX_CHARS_PER_BATCH]. *)
Theorem X1_batches_closed_only_when_full (pdf : PdfDoc) :
  closedWhenFull pdf (calculateDynamicBatches pdf) /\
  forall i b b' p,
    nth_error (calculateDynamicBatches pdf) i = Some b ->
    nth_error (calculateDynamicBatches pdf) (S i) = Some b' ->
    head b' = Some p ->
    didNotFit pdf b p.
Proof.
  assert (closedWhenFull pdf (calculateDynamicBatches pdf)) as Hclosed.
  { unfold calculateDynamicBatches.
    destruct (batchLoop_closedWhenFull pdf (numPages pdf) 0
                {| batches := []; currentBatch := []; currentBatchChars := 0%N |}
                (batch_inv_init pdf) (fun _ => eq_refl) I) as [Hempty Hclosed].
    destruct (0 <? length _) eqn:E; [exact Hclosed|].
    apply Nat.ltb_ge in E.
    destruct (currentBatch _) eqn:Ecur; [|simpl in E; lia].
    now rewrite (Hempty eq_refl). }
  split; [exact Hclosed|].
  revert Hclosed. generalize (calculateDynamicBatches pdf) as bs.
  induction bs as [|x bs IH]; intros Hclosed i b b' p Hb Hb' Hp;
    [destruct i; discriminate|].
  destruct bs as [|y bs]; [destruct i as [|[|i]]; discriminate|].
  destruct Hclosed as [Hx Hrest]. destruct i as [|i].
  - simpl in Hb, Hb'. injection Hb as <-. injection Hb' as <-. now apply Hx.
  - now apply (IH Hrest i b b' p).
Qed.

(** X2. The number of batches lies between an eighth of the pages
    (rounded up) and the number of pages; a document without pages has
    no batch. *)
Theorem X2_batch_count_bounds (pdf : PdfDoc) :
  let bs := calculateDynamicBatches pdf in
  numPages pdf <= MAX_PAGES_PER_BATCH * length bs /\
  length bs <= numPages pdf /\
  (numPages pdf = 0 -> bs = []).
Proof.
  intros bs. destruct (calculateDynamicBatches_ok pdf) as [Hc Hok]. fold bs in Hc, Hok.
  assert (length (concat bs) <= MAX_PAGES_PER_BATCH * length bs /\
          length bs <= length (concat bs)) as [Hup Hlow].
  { clear Hc. induction Hok as [|b l (Hne & Hlen & _) _ [IHup IHlow]]; [simpl; lia|].
    simpl. rewrite length_app. destruct b as [|p b]; [contradiction|].
    simpl in *. unfold MAX_PAGES_PER_BATCH in *. lia. }
  rewrite Hc, length_seq in Hup, Hlow.
  repeat split; [assumption..|].
  intros Hzero. destruct bs; [reflexivity | simpl in Hlow; lia].
Qed.

(** ** AIGateway *)

Lemma backoffDelays_sum (d : Z) (k : nat) :
  fold_right Z.add 0%Z (backoffDelays d k) = (d * (2 ^ Z.of_nat k - 1))%Z.
Proof.
  revert d. induction k as [|k IH]; intros d; [simpl; lia|].
  rewrite backoffDelays_S. simpl fold_right. rewrite IH.
  rewrite Nat2Z.inj_succ, Z.pow_succ_r by lia. lia.
Qed.

(** Every run is some number of retried rounds and a last invocation,
    whose outcome is the result. *)
Lemma retry_any_run {T : Type} (fn : nat -> Outcome T) (onRetry : bool)
    (retries : nat) (d : Z) (calls : nat) :
  exists k,
    k <= retries /\
    rateLimited fn calls k /\
    (k < retries -> final (fn (calls + k))) /\
    retryWithBackoff fn retries d onRetry calls =
      (fn (calls + k), calls + k + 1, retryRounds onRetry d k ++ [Invoke]).
Proof.
  revert d calls. induction retries as [|retries IH]; intros d calls.
  - exists 0. split; [lia|]. split; [intros i Hi; lia|]. split; [lia|].
    simpl. rewrite Nat.add_0_r, Nat.add_1_r. now destruct (fn calls).
  - simpl. destruct (fn calls) as [v|e] eqn:Efn.
    + exists 0. split; [lia|]. split; [intros i Hi; lia|].
      rewrite Nat.add_0_r, Nat.add_1_r, Efn. now split.
    + destruct (isRateLimit e) eqn:Erate.
      * destruct (IH (d * 2)%Z (S calls)) as (k & Hk & Hrl & Hfinal & ->).
        exists (S k). split; [lia|]. split; [|split].
        -- intros i Hi. destruct i as [|i].
           ++ rewrite Nat.add_0_r. eauto.
           ++ replace (calls + S i) with (S calls + i) by lia. apply Hrl. lia.
        -- intros Hlt. replace (calls + S k) with (S calls + k) by lia.
           apply Hfinal. lia.
        -- replace (S calls + k) with (calls + S k) by lia.
           rewrite retryRounds_S. unfold retryRound. simpl.
           now rewrite <- !app_assoc.
      * exists 0. split; [lia|]. split; [intros i Hi; lia|].
        rewrite Nat.add_0_r, Nat.add_1_r, Efn. split; [|reflexivity].
        intros _. exact Erate.
Qed.

(** X3. Whatever the wrapped call does, [retryWithBackoff] invokes it
    [k + 1] times for some [k] within the budget, after [k] rounds that
    each failed with a rate-limit-class error; it settles as the last
    invocation did, which is retried no further because it succeeded,
    failed with another class of error, or the budget is used up. It
    waited [currentDelay * (2^k - 1)] ms in all, at most
    [currentDelay * (2^retries - 1)]: 62 000 ms with the defaults. *)
Theorem X3_retry_any_call_is_bounded (T : Type) (fn : nat -> Outcome T)
    (onRetry : bool) (retries : nat) (currentDelay : Z) :
  (0 <= currentDelay)%Z ->
  exists k,
    k <= retries /\
    rateLimited fn 0 k /\
    (final (fn k) \/ k = retries) /\
    retryWithBackoff fn retries currentDelay onRetry 0 =
      (fn k, k + 1, retryRounds onRetry currentDelay k ++ [Invoke]) /\
    totalDelay (retryRounds onRetry currentDelay k ++ [Invoke]) =
      (currentDelay * (2 ^ Z.of_nat k - 1))%Z /\
    (totalDelay (retryRounds onRetry currentDelay k ++ [Invoke]) <=
       currentDelay * (2 ^ Z.of_nat retries - 1))%Z /\
    (retries = DEFAULT_RETRIES -> currentDelay = DEFAULT_DELAY ->
     (totalDelay (retryRounds onRetry currentDelay k ++ [Invoke]) <= 62000)%Z).
Proof.
  intros Hd. destruct (retry_any_run fn onRetry retries currentDelay 0)
    as (k & Hk & Hrl & Hfinal & Hrun).
  exists k. simpl in *.
  assert (totalDelay (retryRounds onRetry currentDelay k ++ [Invoke]) =
          (currentDelay * (2 ^ Z.of_nat k - 1))%Z) as Htotal.
  { unfold totalDelay. rewrite delaysOf_app, delaysOf_rounds. simpl.
    rewrite app_nil_r. apply backoffDelays_sum. }
  assert (2 ^ Z.of_nat k <= 2 ^ Z.of_nat retries)%Z as Hpow
    by (apply Z.pow_le_mono_r; lia).
  repeat split; try assumption.
  - destruct (Nat.eq_dec k retries) as [->|Hne]; [now right|].
    left. apply Hfinal. lia.
  - rewrite Htotal. apply Z.mul_le_mono_nonneg_l; lia.
  - intros -> ->. rewrite Htotal. unfold DEFAULT_DELAY, DEFAULT_RETRIES in *.
    change (2 ^ Z.of_nat 5)%Z with 32%Z in Hpow. lia.
Qed.

Lemma X3_retry_any_call_is_bounded_witness :
  exists k,
    k <= 5 /\
    retryWithBackoff flakyCall 5 2000 true 0 =
      (flakyCall k, k + 1, retryRounds true 2000 k ++ [Invoke]) /\
    (totalDelay (retryRounds true 2000 k ++ [Invoke]) <= 62000)%Z.
Proof.
  destruct (X3_retry_any_call_is_bounded nat flakyCall true 5 2000 ltac:(lia))
    as (k & Hk & _ & _ & Hrun & _ & _ & Hbound).
  exists k. split; [exact Hk|]. split; [exact Hrun|]. now apply Hbound.
Defined.

(** ** ImageExtractor *)

Lemma pageIndexOf_name (a b : ProcessedImage) :
  name a = name b -> pageIndexOf a = pageIndexOf b.
Proof. unfold pageIndexOf. now intros ->. Qed.

Lemma sortedByPageIndex_NoDup (l : list ProcessedImage) :
  sortedByPageIndex l -> NoDup (map name l).
Proof.
  induction 1 as [|a l _ IH Hall]; [constructor|].
  simpl. apply NoDup_cons. split; [|exact IH].
  intros Hin%list_elem_of_In. apply in_map_iff in Hin as (b & Hname & Hb).
  rewrite List.Forall_forall in Hall.
  destruct (Hall b Hb) as (ka & kb & Hka & Hkb & Hlt).
  rewrite (pageIndexOf_name b a Hname), Hka in Hkb. injection Hkb as <-.
  now apply (keyLt_irrefl ka).
Qed.

Lemma processOperator_Some (p i : nat) (op : Operator) (img : ProcessedImage) :
  processOperator p i op = Some img ->
  name img = imageName p i /\ mimeType img = "image/jpeg" /\
  description img = None /\ paintsLarge op (data img).
Proof.
  unfold processOperator, paintsLarge.
  destruct (op_fn op) eqn:Efn; try discriminate;
    (destruct (op_obj op) as [[imgObj|]|]; try discriminate;
     destruct (N.ltb_spec (resolveDim (io_width imgObj) (fst <$> io_bitmap imgObj))
                 MIN_DIMENSION) as [|Hw]; try discriminate;
     destruct (N.ltb_spec (resolveDim (io_height imgObj) (snd <$> io_bitmap imgObj))
                 MIN_DIMENSION) as [|Hh]; try discriminate;
     simpl;
     destruct (bool_decide (is_Some (io_bitmap imgObj)) || io_drawable imgObj);
     try discriminate;
     destruct (op_blob op) as [blob|]; try discriminate;
     intros [= <-]; simpl; repeat split; try discriminate; eauto).
Qed.

Lemma processOperators_In (p : nat) (ops : list Operator) (i0 : nat)
    (img : ProcessedImage) :
  In img (processOperators p i0 ops) ->
  exists i op, i0 <= i /\ In op ops /\ processOperator p i op = Some img.
Proof.
  revert i0. induction ops as [|op ops IH]; intros i0; simpl; [intros []|].
  destruct (processOperator p i0 op) as [img'|] eqn:Eop.
  - intros [<- | Hin].
    + exists i0, op. auto.
    + destruct (IH _ Hin) as (i & op' & Hi & Hop & Himg).
      exists i, op'. split; [lia|]. auto.
  - intros Hin. destruct (IH _ Hin) as (i & op' & Hi & Hop & Himg).
    exists i, op'. auto.
Qed.

(** What the task of page [p] pushes is a JPEG that comes from the
    page. *)
Lemma processPage_In (ctx : nat -> bool) (pdf : PdfDoc) (p : nat)
    (img : ProcessedImage) :
  1 <= p <= numPages pdf ->
  In img (processPage ctx pdf p) ->
  mimeType img = "image/jpeg" /\
  (exists i, 1 <= i /\ name img = imageName p i) /\
  provenance pdf img.
Proof.
  intros Hp. unfold processPage.
  destruct (negb (ctx p)); [intros []|].
  destruct (negb (pg_load (getPage pdf p))); [intros []|].
  destruct (Nat.eqb_spec p 1) as [-> | Hne].
  - destruct (pg_render (getPage pdf 1)) as [[blob|]|] eqn:Erender;
      [|intros []..].
    intros [<- | []]. split; [reflexivity|]. split.
    + exists 1. split; [lia | apply COVER_NAME_imageName].
    + left. now repeat split.
  - destruct (pg_ops (getPage pdf p)) as [ops|] eqn:Eops; [|intros []].
    intros Hin. apply processOperators_In in Hin as (i & op & Hi & Hop & Himg).
    apply processOperator_Some in Himg as (Hname & Hmime & Hdesc & Hlarge).
    split; [exact Hmime|]. split; [eauto|].
    right. exists p, i, ops, op.
    split; [lia|]. split; [exact Hname|]. split; [exact Eops|].
    split; [exact Hop|]. split; [exact Hlarge | exact Hdesc].
Qed.

Lemma inPageOrder_In (ctx : nat -> bool) (pdf : PdfDoc) (img : ProcessedImage) :
  In img (inPageOrder ctx pdf) ->
  mimeType img = "image/jpeg" /\
  (exists p i, 1 <= p <= numPages pdf /\ 1 <= i /\ name img = imageName p i) /\
  provenance pdf img.
Proof.
  unfold inPageOrder. intros (p & Hp & Hin)%in_flat_map.
  apply in_seq in Hp.
  destruct (processPage_In ctx pdf p img ltac:(lia) Hin) as (Hm & (i & Hi & Hn) & Hprov).
  split; [exact Hm|]. split; [|exact Hprov].
  exists p, i. repeat split; try assumption; lia.
Qed.

(** The images of one page among those of the pages [s, s+1, ...]. *)
Lemma imagesOfPage_pagesFrom (ctx : nat -> bool) (pdf : PdfDoc) (n s p : nat) :
  imagesOfPage (Z.of_nat p) (flat_map (processPage ctx pdf) (seq s n)) =
  if (s <=? p) && (p <? s + n) then processPage ctx pdf p else [].
Proof.
  revert s. induction n as [|n IH]; intros s.
  - cbn [seq flat_map].
    replace ((s <=? p) && (p <? s + 0)) with false; [reflexivity|].
    symmetry. apply andb_false_iff. rewrite Nat.leb_gt, Nat.ltb_ge. lia.
  - cbn [seq flat_map]. rewrite imagesOfPage_app, IH.
    destruct (Nat.eq_dec p s) as [-> | Hne].
    + rewrite (imagesOfPage_same s) by apply processPage_named.
      replace ((S s <=? s) && (s <? S s + n)) with false
        by (symmetry; apply andb_false_iff; left; apply Nat.leb_gt; lia).
      replace ((s <=? s) && (s <? s + S n)) with true
        by (symmetry; apply andb_true_iff; rewrite Nat.leb_le, Nat.ltb_lt; lia).
      apply app_nil_r.
    + rewrite (imagesOfPage_other p).
      * replace ((S s <=? p) && (p <? S s + n)) with ((s <=? p) && (p <? s + S n));
          [reflexivity|].
        apply Bool.eq_iff_eq_true.
        rewrite !andb_true_iff, !Nat.leb_le, !Nat.ltb_lt. lia.
      * eapply List.Forall_impl; [|apply (processPage_named ctx pdf s)].
        intros img (i & Hn). exists s, i. split; [congruence | assumption].
Qed.

Lemma imagesOfPage_inPageOrder_any (ctx : nat -> bool) (pdf : PdfDoc) (p : nat) :
  imagesOfPage (Z.of_nat p) (inPageOrder ctx pdf) =
  if (1 <=? p) && (p <=? numPages pdf) then processPage ctx pdf p else [].
Proof.
  unfold inPageOrder. rewrite imagesOfPage_pagesFrom.
  replace ((1 <=? p) && (p <? 1 + numPages pdf))
    with ((1 <=? p) && (p <=? numPages pdf)); [reflexivity|].
  apply Bool.eq_iff_eq_true.
  rewrite !andb_true_iff, !Nat.leb_le, !Nat.ltb_lt. lia.
Qed.

Lemma pageFails_nil (ctx : nat -> bool) (pdf : PdfDoc) (p : nat) :
  pageFails ctx pdf p -> processPage ctx pdf p = [].
Proof.
  unfold processPage. intros [-> | [-> | [Hne ->]]]; simpl; try reflexivity.
  - now destruct (negb (ctx p)).
  - destruct (negb (ctx p)); [reflexivity|].
    destruct (negb (pg_load (getPage pdf p))); [reflexivity|].
    now destruct (Nat.eqb_spec p 1).
Qed.

(** X4. Whatever the completion order of the page tasks, the images
    [extractAndProcessImages] returns have pairwise different names;
    each is a JPEG named [image_p<p>_i<i>.jpg] for a page [p] of the
    document and an index [i] from 1 on, and [totalPages] is the page
    count of the document. *)
Theorem X4_extracted_names_unique (ctx : nat -> bool) (pdf : PdfDoc)
    (r : option ImageExtractionResult) :
  extractRun ctx pdf r ->
  exists res,
    r = Some res /\
    totalPages res = numPages pdf /\
    NoDup (map name (images res)) /\
    Forall (fun img =>
              mimeType img = "image/jpeg" /\
              exists p i, 1 <= p <= numPages pdf /\ 1 <= i /\
                          name img = imageName p i) (images res).
Proof.
  intros (pushed & Hpushed & ->).
  rewrite (sortAndReturn_pushed ctx pdf pushed Hpushed).
  eexists. split; [reflexivity|]. simpl. split; [reflexivity|]. split.
  - apply sortedByPageIndex_NoDup, inPageOrder_sorted.
  - apply List.Forall_forall. intros img Himg.
    destruct (inPageOrder_In ctx pdf img Himg) as (Hm & Hn & _). now split.
Qed.

Lemma X4_extracted_names_unique_witness :
  exists res,
    extractAndProcessImages everyCtx samplePdf = Some res /\
    totalPages res = 3 /\
    NoDup (map name (images res)).
Proof.
  destruct (X4_extracted_names_unique everyCtx samplePdf _
              (extractRun_sequential everyCtx samplePdf))
    as (res & Hres & Htotal & Hnodup & _).
  exists res. split; [exact Hres|]. split; [exact Htotal | exact Hnodup].
Defined.

(** X5. Whatever the completion order, the images of the result that
    belong to page [p] are exactly what the task of page [p] pushed, in
    the order it pushed them, and their indices are 1, 2, ... without a
    gap: an operator that is skipped uses up no index. Pages outside
    [1..numPages] contribute nothing. *)
Theorem X5_page_images_numbered_without_gaps (ctx : nat -> bool) (pdf : PdfDoc)
    (r : option ImageExtractionResult) (p : nat) :
  extractRun ctx pdf r ->
  exists res,
    r = Some res /\
    imagesOfPage (Z.of_nat p) (images res) =
      (if (1 <=? p) && (p <=? numPages pdf) then processPage ctx pdf p else []) /\
    map name (imagesOfPage (Z.of_nat p) (images res)) =
      map (imageName p) (seq 1 (length (imagesOfPage (Z.of_nat p) (images res)))).
Proof.
  intros (pushed & Hpushed & ->).
  rewrite (sortAndReturn_pushed ctx pdf pushed Hpushed).
  eexists. split; [reflexivity|]. simpl.
  rewrite imagesOfPage_inPageOrder_any. split; [reflexivity|].
  destruct ((1 <=? p) && (p <=? numPages pdf)); [|reflexivity].
  apply processPage_names.
Qed.

Lemma X5_page_images_numbered_without_gaps_witness :
  exists res,
    extractAndProcessImages everyCtx samplePdf = Some res /\
    map name (imagesOfPage 2 (images res)) = ["image_p2_i1.jpg"; "image_p2_i2.jpg"].
Proof.
  destruct (X5_page_images_numbered_without_gaps everyCtx samplePdf _ 2
              (extractRun_sequential everyCtx samplePdf))
    as (res & Hres & Hpage & _).
  exists res. split; [exact Hres|].
  change (Z.of_nat 2) with 2%Z in Hpage. rewrite Hpage. reflexivity.
Defined.

(** X6. A failure stays on its page. When two documents of the same
    length agree on page [p] (and the task of [p] gets a context in
    both runs or in neither), the two results hold the same images for
    [p], whatever happens on the other pages; and a page whose task
    fails (no canvas context, the page does not load, its operator list
    cannot be read) contributes no image, while the run still
    returns. *)
Theorem X6_page_failure_is_isolated (ctx ctx' : nat -> bool) (pdf pdf' : PdfDoc)
    (r r' : option ImageExtractionResult) (p : nat) :
  extractRun ctx pdf r -> extractRun ctx' pdf' r' ->
  numPages pdf = numPages pdf' ->
  exists res res',
    r = Some res /\ r' = Some res' /\
    (ctx p = ctx' p -> getPage pdf p = getPage pdf' p ->
     imagesOfPage (Z.of_nat p) (images res) =
     imagesOfPage (Z.of_nat p) (images res')) /\
    (pageFails ctx pdf p -> imagesOfPage (Z.of_nat p) (images res) = []).
Proof.
  intros (pushed & Hpushed & ->) (pushed' & Hpushed' & ->) Hlen.
  rewrite (sortAndReturn_pushed ctx pdf pushed Hpushed).
  rewrite (sortAndReturn_pushed ctx' pdf' pushed' Hpushed').
  do 2 eexists. split; [reflexivity|]. split; [reflexivity|]. simpl.
  rewrite !imagesOfPage_inPageOrder_any, <- Hlen. split.
  - intros Hctx Hpage. unfold processPage. now rewrite Hctx, Hpage.
  - intros Hfail. rewrite (pageFails_nil ctx pdf p Hfail).
    now destruct ((1 <=? p) && (p <=? numPages pdf)).
Qed.

Lemma X6_page_failure_is_isolated_witness :
  exists res res',
    extractAndProcessImages everyCtx samplePdf = Some res /\
    extractAndProcessImages everyCtx damagedPdf = Some res' /\
    imagesOfPage 3 (images res) = imagesOfPage 3 (images res') /\
    imagesOfPage 2 (images res') = [].
Proof.
  destruct (X6_page_failure_is_isolated everyCtx everyCtx samplePdf damagedPdf _ _ 3
              (extractRun_sequential everyCtx samplePdf)
              (extractRun_sequential everyCtx damagedPdf) eq_refl)
    as (res & res' & Hres & Hres' & Hsame & _).
  exists res, res'. split; [exact Hres|]. split; [exact Hres'|].
  split; [exact (Hsame eq_refl eq_refl)|].
  injection Hres' as <-. vm_compute. reflexivity.
Defined.

(** X7. Whatever the completion order, every image of the result comes
    from the document: it is the render of the first page, named
    [image_p1_i1.jpg] and described as the cover, or it is the encoding
    of a raster that a paint operator of a later page draws and whose
    width and height (its own, or those of its bitmap when its own are
    missing) are both at least 200; such an image has no description
    yet. Nothing smaller is ever extracted. *)
Theorem X7_extracted_images_come_from_large_rasters (ctx : nat -> bool)
    (pdf : PdfDoc) (r : option ImageExtractionResult) :
  extractRun ctx pdf r ->
  exists res, r = Some res /\ Forall (provenance pdf) (images res).
Proof.
  intros (pushed & Hpushed & ->).
  rewrite (sortAndReturn_pushed ctx pdf pushed Hpushed).
  eexists. split; [reflexivity|]. simpl.
  apply List.Forall_forall. intros img Himg.
  now destruct (inPageOrder_In ctx pdf img Himg) as (_ & _ & Hprov).
Qed.

Lemma X7_extracted_images_come_from_large_rasters_witness :
  exists res,
    extractAndProcessImages everyCtx samplePdf = Some res /\
    Forall (provenance samplePdf) (images res).
Proof.
  exact (X7_extracted_images_come_from_large_rasters everyCtx samplePdf _
           (extractRun_sequential everyCtx samplePdf)).
Defined.

(** ** ImageCaptioner *)

Lemma requestsOf_app (a b : list CaptionEvent) :
  requestsOf (a ++ b) = requestsOf a ++ requestsOf b.
Proof. apply flat_map_app. Qed.

Lemma requestsOf_none (evs : list CaptionEvent) :
  Forall (fun e => forall j ps, e <> Sent j ps) evs -> requestsOf evs = [].
Proof.
  induction 1 as [|e evs He _ IH]; [reflexivity|].
  simpl. rewrite IH. destruct e; try reflexivity. now destruct (He i parts).
Qed.

(** The requests of the loop from index [i] on: the images from [i]
    on, cut into runs of [BATCH_SIZE]. *)
Lemma captionLoop_requests (env : CaptionEnv) (contentImages : list ProcessedImage) :
  blobsConvert env contentImages ->
  forall fuel i st,
    length contentImages - i <= fuel ->
    let reqs := requestsOf (captionLoop env contentImages fuel i st).2 in
    concat (map (map part_filename) reqs) = map name (drop i contentImages) /\
    Forall (fun parts => 1 <= length parts <= BATCH_SIZE) reqs /\
    length contentImages - i <= BATCH_SIZE * length reqs /\
    BATCH_SIZE * length reqs < length contentImages - i + BATCH_SIZE.
Proof.
  intros Hconv. induction fuel as [|fuel IH]; intros i st Hfuel.
  - simpl. rewrite drop_ge by lia. unfold BATCH_SIZE. repeat split; [constructor | lia..].
  - cbn [captionLoop]. destruct (Nat.ltb_spec i (length contentImages)) as [Hlt | Hge].
    + destruct (batchParts_converts env (slice i (i + BATCH_SIZE) contentImages))
        as [parts Eparts].
      { intros img Himg. eapply Hconv, slice_In, Himg. }
      rewrite Eparts.
      pose proof (batchParts_filenames env _ parts Eparts) as Hnames.
      pose proof (tryBatch_events env i parts st) as Hevs.
      destruct (tryBatch env i parts st) as [[st' evs] caught]. simpl in Hevs.
      specialize (IH (i + BATCH_SIZE) st' ltac:(unfold BATCH_SIZE; lia)).
      destruct (captionLoop env contentImages fuel (i + BATCH_SIZE) st') as [res evs'].
      cbn [snd] in *. cbv zeta in IH.
      destruct IH as (Hcat & Hsizes & Hlow & Hhigh).
      change (requestsOf (Sent i parts :: evs ++ Progress _ :: evs'))
        with (parts :: requestsOf (evs ++ Progress (i + length
                (slice i (i + BATCH_SIZE) contentImages)) :: evs')).
      rewrite requestsOf_app, (requestsOf_none evs Hevs).
      change (requestsOf (Progress _ :: evs')) with (requestsOf evs').
      cbn [app map concat length].
      assert (length parts = Nat.min BATCH_SIZE (length contentImages - i)) as Hlen.
      { rewrite <- (length_map part_filename), Hnames, length_map.
        unfold slice. rewrite length_take, length_drop. lia. }
      split; [|split; [|split]].
      * rewrite Hcat, Hnames. unfold slice.
        replace (i + BATCH_SIZE - i) with BATCH_SIZE by lia.
        rewrite <- map_app. f_equal.
        rewrite <- drop_drop. apply take_drop.
      * constructor; [|exact Hsizes]. unfold BATCH_SIZE in *. lia.
      * unfold BATCH_SIZE in *. lia.
      * unfold BATCH_SIZE in *. lia.
    + simpl. rewrite drop_ge by lia. unfold BATCH_SIZE.
      repeat split; [constructor | lia..].
Qed.

(** X8. When the credential is there and the blobs convert,
    [generateImageCaptions] returns, and its requests carry every image
    but the cover exactly once, in the order of the list: the file
    names of the requests, one request after the other, are the names
    of the images other than [image_p1_i1.jpg]. Every request holds
    between 1 and 8 images, and there are as many requests as it takes
    to send them 8 at a time. *)
Theorem X8_requests_partition_content_images (env : CaptionEnv)
    (images : list ProcessedImage) :
  env_apiKey env = true -> blobsConvert env images ->
  exists captioned evs,
    generateImageCaptions env images = (Returns captioned, evs) /\
    concat (map (map part_filename) (requestsOf evs)) =
      map name (contentImagesOf images) /\
    Forall (fun parts => 1 <= length parts <= BATCH_SIZE) (requestsOf evs) /\
    ~ In COVER_NAME (concat (map (map part_filename) (requestsOf evs))) /\
    length (contentImagesOf images) <= BATCH_SIZE * length (requestsOf evs) /\
    BATCH_SIZE * length (requestsOf evs) < length (contentImagesOf images) + BATCH_SIZE.
Proof.
  intros Hkey Hconv.
  destruct (generateImageCaptions_returns env images Hkey Hconv)
    as (captioned & evs & Hret).
  exists captioned, evs. split; [exact Hret|].
  assert (blobsConvert env (contentImagesOf images)) as Hconv'.
  { intros img Himg. apply Hconv. now apply List.filter_In in Himg as [Himg _]. }
  pose proof (captionLoop_requests env (contentImagesOf images) Hconv'
                (length (contentImagesOf images)) 0 images ltac:(lia)) as Hreqs.
  unfold generateImageCaptions in Hret. rewrite Hkey in Hret. simpl negb in Hret.
  cbv iota in Hret. fold (contentImagesOf images) in Hret.
  rewrite Hret in Hreqs. cbn [snd] in Hreqs. cbv zeta in Hreqs.
  rewrite drop_0, Nat.sub_0_r in Hreqs.
  destruct Hreqs as (Hcat & Hsizes & Hlow & Hhigh).
  repeat split; try assumption.
  rewrite Hcat. intros (img & Hname & Himg)%in_map_iff.
  apply List.filter_In in Himg as [_ Hnot].
  rewrite Hname, String.eqb_refl in Hnot. discriminate Hnot.
Qed.

Lemma sampleImages_convert : blobsConvert failingEnv (sampleArrival ++ sampleImages).
Proof. intros img _. unfold failingEnv, base64Of. simpl. eauto. Qed.

Lemma X8_requests_partition_content_images_witness :
  exists captioned evs,
    generateImageCaptions failingEnv (sampleArrival ++ sampleImages) =
      (Returns captioned, evs) /\
    concat (map (map part_filename) (requestsOf evs)) =
      ["image_p3_i1.jpg"; "image_p2_i1.jpg"; "image_p2_i2.jpg"; "image_p2_i1.jpg"].
Proof.
  destruct (X8_requests_partition_content_images failingEnv
              (sampleArrival ++ sampleImages) eq_refl sampleImages_convert)
    as (captioned & evs & Hret & Hcat & _).
  exists captioned, evs. split; [exact Hret|]. rewrite Hcat. reflexivity.
Defined.

(** *** The entries of a response *)

Lemma update_names (f : ProcessedImage -> ProcessedImage) (st : list ProcessedImage) :
  (forall img, name (f img) = name img) -> map name (map f st) = map name st.
Proof.
  intros Hf. rewrite map_map. apply map_ext. exact Hf.
Qed.

Lemma captionedBy_name (items : list json) (img : ProcessedImage) :
  name (captionedBy items img) = name img.
Proof. unfold captionedBy. now destruct (lastNaming (name img) items). Qed.

(** With unique names, assigning at the index [findIndex] gives is
    assigning to every image of that name. *)
Lemma findIndex_alter (n : string) (d : option json) (st : list ProcessedImage) :
  NoDup (map name st) ->
  match findIndex (nameIs (Some (JStr n))) st with
  | Some idx => alter (setDescription d) idx st
  | None => st
  end =
  map (fun img => if String.eqb (name img) n then setDescription d img else img) st.
Proof.
  induction st as [|img st IH]; [reflexivity|].
  simpl. intros [Hnotin Hnd]%NoDup_cons.
  destruct (String.eqb_spec (name img) n) as [Heq | Hne].
  - simpl. f_equal. symmetry. rewrite <- (map_id st) at 2. apply map_ext_in.
    intros img' Himg'. destruct (String.eqb_spec (name img') n) as [Heq' | ]; [|reflexivity].
    exfalso. apply Hnotin, list_elem_of_In, in_map_iff. exists img'.
    split; [congruence | assumption].
  - specialize (IH Hnd).
    destruct (findIndex (nameIs (Some (JStr n))) st) as [idx|]; simpl;
      now rewrite <- IH.
Qed.

Lemma findIndex_no_name (v : option json) (st : list ProcessedImage) :
  (forall s, v <> Some (JStr s)) -> findIndex (nameIs v) st = None.
Proof.
  intros Hv. induction st as [|img st IH]; [reflexivity|].
  simpl. rewrite IH. destruct v as [[]|]; try reflexivity. now destruct (Hv s).
Qed.

(** One entry that is an object never throws, and assigns its
    description to the image it names. *)
Lemma applyItem_entry (item : json) (st : list ProcessedImage) :
  isEntry item -> NoDup (map name st) ->
  applyItem item st =
  Some (map (fun img => match entryFor (name img) item with
                        | Some d => setDescription d img
                        | None => img
                        end) st).
Proof.
  intros Hentry Hnd. destruct item as [| | | | |fields]; try destruct Hentry.
  unfold applyItem, entryFor. destruct st as [|img0 st0] eqn:Est; [reflexivity|].
  cbv beta iota. rewrite <- Est in Hnd |- *. clear Est img0 st0. cbn [getProp].
  destruct (lookupField "name" fields) as [[| | |n| |]|] eqn:Ename;
    try (rewrite findIndex_no_name by (intros s; discriminate);
         now rewrite map_id).
  pose proof (findIndex_alter n (lookupField "description" fields) st Hnd) as Halter.
  rewrite (map_ext _ (fun img => if String.eqb (name img) n
                                 then setDescription (lookupField "description" fields) img
                                 else img))
    by (intros img; now destruct (String.eqb (name img) n)).
  rewrite <- Halter. now destruct (findIndex (nameIs (Some (JStr n))) st).
Qed.

Lemma applyItems_entries (items : list json) (st : list ProcessedImage) :
  Forall isEntry items -> NoDup (map name st) ->
  applyItems items st = (map (captionedBy items) st, false).
Proof.
  intros Hitems. revert st. induction Hitems as [|item items Hitem _ IH]; intros st Hnd.
  - simpl. unfold captionedBy. simpl. now rewrite map_id.
  - cbn [applyItems]. rewrite (applyItem_entry item st Hitem Hnd).
    rewrite IH.
    + f_equal. rewrite map_map. apply map_ext. intros img.
      unfold captionedBy. cbn [lastNaming].
      destruct (entryFor (name img) item) as [d|] eqn:Eitem; simpl.
      * now destruct (lastNaming (name img) items).
      * now destruct (lastNaming (name img) items).
    + rewrite update_names; [exact Hnd|].
      intros img. now destruct (entryFor (name img) item).
Qed.

(** X9. When the images have pairwise different names, applying a
    response whose entries are objects never throws, and afterwards
    every image carries the [description] of the last entry that names
    it (none, when that entry has no [description]); an image no entry
    names, and every name, data and type, is as before. Entries that
    name no image, or have no string [name], change nothing. *)
Theorem X9_last_entry_naming_an_image_wins (items : list json)
    (captionedImages : list ProcessedImage) :
  Forall isEntry items -> NoDup (map name captionedImages) ->
  applyItems items captionedImages =
    (map (captionedBy items) captionedImages, false) /\
  map identityOf (map (captionedBy items) captionedImages) =
    map identityOf captionedImages /\
  (forall img, In img captionedImages ->
     lastNaming (name img) items = None -> captionedBy items img = img) /\
  (forall img d, In img captionedImages ->
     lastNaming (name img) items = Some d ->
     description (captionedBy items img) = d).
Proof.
  intros Hitems Hnd. split; [now apply applyItems_entries|]. split; [|split].
  - rewrite map_map. apply map_ext. intros img. unfold captionedBy.
    now destruct (lastNaming (name img) items).
  - intros img _ Hnone. unfold captionedBy. now rewrite Hnone.
  - intros img d _ Hsome. unfold captionedBy. now rewrite Hsome.
Qed.

Lemma X9_last_entry_naming_an_image_wins_witness :
  applyItems sampleEntries sampleImages =
    ([coverImage "cover";
      setDescription (Some (JStr "A photograph")) (extracted 2 1 "b")], false).
Proof.
  destruct (X9_last_entry_naming_an_image_wins sampleEntries sampleImages)
    as (Happly & _).
  - repeat constructor.
  - exact sampleImages_unique.
  - rewrite Happly. reflexivity.
Defined.

(** ** PackageAssembler: the navigation documents *)

Section Navigation.
Variables (uniqueId timestamp title : string).
Variable markdownContent : list Block.
Variable images : list ProcessedImage.

Local Abbreviation navPkg :=
  (generateEpub uniqueId timestamp title markdownContent images).


End Navigation.


Lemma orElse_cons (c : ascii) (s b : string) : orElse (String c s) b = String c s.
Proof. reflexivity. Qed.











(** ** PackageAssembler: what the archive holds *)





(** ** PackageAssembler: the ids of the manifest *)









(** Outside the convention two names can share an id. *)
Example manifest_ids_collide :
  map item_id (map imageManifestItem collidingImages) = ["fig_1_jpg"; "fig_1_jpg"].
Proof. reflexivity. Qed.

(** ** PackageAssembler: the text of the entries *)

Lemma stripTagsFrom_no_open (inTag : bool) (s : string) :
  noOpen (stripTagsFrom inTag s) = true.
Proof.
  revert inTag. induction s as [|c s IH]; intros inTag; [reflexivity|].
  simpl. destruct inTag.
  - destruct (Ascii.eqb c ">"); apply IH.
  - destruct (Ascii.eqb c "<") eqn:Ec; [apply IH|].
    simpl. now rewrite Ec, IH.
Qed.

(** X13. No markup reaches the table of contents. Whatever a heading
    holds (formatting, images, links, raw HTML, an unclosed tag), the
    text of its entry has no ['<']: stripping it again changes
    nothing, and the label written to the navigation documents, the
    escaped text, has no angle bracket and no quote. *)
Theorem X13_toc_text_has_no_markup (uniqueId timestamp title : string)
    (markdownContent : list Block) (images : list ProcessedImage) (e : TocItem) :
  In e (pkg_toc (generateEpub uniqueId timestamp title markdownContent images)) ->
  noOpen (toc_text e) = true /\
  stripTags (toc_text e) = toc_text e /\
  attrSafe (escapeXml (toc_text e)) = true.
Proof.
  rewrite generateEpub_toc. intros (n & h & _ & _ & ->)%tocFrom_only.
  cbn [tocEntryOf toc_text].
  pose proof (stripTagsFrom_no_open false (parseInline h.2)) as Hno.
  split; [exact Hno|]. split; [|apply escapeXml_attrSafe].
  now apply stripTagsFrom_noOpen.
Qed.

Lemma X13_toc_text_has_no_markup_witness :
  map toc_text (pkg_toc (generateEpub "uid" "2024-01-01T00:00:00Z" "Magazine"
                           markupHeading [])) = ["A bold claim "] /\
  attrSafe (escapeXml "A bold claim ") = true.
Proof.
  split; [reflexivity|].
  apply (X13_toc_text_has_no_markup "uid" "2024-01-01T00:00:00Z" "Magazine"
           markupHeading []
           {| toc_id := "section-0"; toc_text := "A bold claim "; toc_level := 1 |}).
  now left.
Defined.
